(** * PDive2: the discovery-and-scan engine of [main.go]

    A shallow embedding of the engine (target expansion, the worker pools,
    host discovery, port scanning, the masscan adapter, service
    identification and the shared result store) together with the
    properties its specification states about it.

    Conventions.
    - Go's [int] is modelled by [Z]; the program only adds lengths of
      slices and compares small constants, so no wrap-around is reachable.
    - Go strings are byte strings: [string] of the standard library.
    - Go maps are [gmap]s; slices are lists ([nil] and the empty slice are
      both the empty list).
    - The outside world (network, processes, library parsers, the
      scheduler of the goroutines) is a record [Env] of oracles; every
      blocking call and every lock operation is also written to a trace.
    - The only loop of the program that may fail to terminate (the CIDR
      walk of [expandTargets]) takes fuel and returns [None] when it runs out. *)

From Stdlib Require Import ZArith Lia Ascii.
From Stdlib Require Import Numbers.DecimalString Numbers.DecimalPos.
From stdpp Require Import base gmap strings list fin_maps.

Local Open Scope Z_scope.

(** ** The parts of Go's standard library that the engine calls *)

(** Package [strings], on byte strings. White space is the ASCII part of
    [unicode.IsSpace]; letters are the ASCII letters. *)
Module strings.

Definition isSpace (c : ascii) : bool :=
  match c with
  | "009" | "010" | "011" | "012" | "013" | " " => true
  | _ => false
  end%char.

Fixpoint trimLeft (s : string) : string :=
  match s with
  | String c s' => if isSpace c then trimLeft s' else s
  | EmptyString => EmptyString
  end.

Fixpoint trimRight (s : string) : string :=
  match s with
  | String c s' =>
      match trimRight s' with
      | EmptyString => if isSpace c then EmptyString else String c EmptyString
      | r => String c r
      end
  | EmptyString => EmptyString
  end.

Definition TrimSpace (s : string) : string := trimRight (trimLeft s).

(** The word being read is [w]; it is flushed at each white-space byte. *)
Definition flush (w : string) : list string :=
  match w with EmptyString => [] | _ => [w] end.

Fixpoint fieldsFrom (w : string) (s : string) : list string :=
  match s with
  | EmptyString => flush w
  | String c s' =>
      if isSpace c then flush w ++ fieldsFrom EmptyString s'
      else fieldsFrom (w +:+ String c EmptyString) s'
  end.

Definition Fields (s : string) : list string := fieldsFrom EmptyString s.

Definition HasPrefix (s prefix : string) : bool := String.prefix prefix s.

Fixpoint Contains (s substr : string) : bool :=
  String.prefix substr s ||
  match s with
  | String _ s' => Contains s' substr
  | EmptyString => false
  end.

(** [Split s sep] for a one-byte separator, the only kind the engine uses:
    n separators give n+1 pieces, the empty string gives one empty piece. *)
Fixpoint splitFrom (w : string) (sep : ascii) (s : string) : list string :=
  match s with
  | EmptyString => [w]
  | String c s' =>
      if Ascii.eqb c sep then w :: splitFrom EmptyString sep s'
      else splitFrom (w +:+ String c EmptyString) sep s'
  end.

Definition Split (s : string) (sep : ascii) : list string :=
  splitFrom EmptyString sep s.

Definition lowerByte (c : ascii) : ascii :=
  let n := Ascii.N_of_ascii c in
  if ((65 <=? n) && (n <=? 90))%N then Ascii.ascii_of_N (n + 32) else c.

Fixpoint ToLower (s : string) : string :=
  match s with
  | String c s' => String (lowerByte c) (ToLower s')
  | EmptyString => EmptyString
  end.

Fixpoint Join (l : list string) (sep : string) : string :=
  match l with
  | [] => EmptyString
  | [x] => x
  | x :: rest => x +:+ sep +:+ Join rest sep
  end.

End strings.

(** Package [strconv]. *)
Module strconv.

Definition digit (c : ascii) : option Z :=
  let n := Ascii.N_of_ascii c in
  if ((48 <=? n) && (n <=? 57))%N then Some (Z.of_N n - 48) else None.

Fixpoint digits (acc : Z) (s : string) : option Z :=
  match s with
  | EmptyString => Some acc
  | String c s' =>
      match digit c with
      | Some d => digits (10 * acc + d) s'
      | None => None
      end
  end.

Definition minInt : Z := - 2 ^ 63.
Definition maxInt : Z := 2 ^ 63 - 1.

(** [Atoi]: an optional sign, then one or more decimal digits, and the
    value must fit Go's 64-bit [int]; anything else is an error. *)
Definition Atoi (s : string) : option Z :=
  match s with
  | EmptyString => None
  | String c s' =>
      let '(neg, body) :=
        if Ascii.eqb c "-" then (true, s')
        else if Ascii.eqb c "+" then (false, s')
        else (false, s) in
      match body with
      | EmptyString => None
      | _ =>
          match digits 0 body with
          | Some n =>
              let v := if neg then - n else n in
              if (minInt <=? v) && (v <=? maxInt) then Some v else None
          | None => None
          end
      end
  end.

(** [Itoa], also what the verb [%d] prints. *)
Definition Itoa (n : Z) : string := NilZero.string_of_int (Z.to_int n).

End strconv.

(** Package [net]: addresses are byte slices, most significant byte first. *)
Module net.

Definition IP : Type := list Z.
Definition IPMask : Type := list Z.

Record IPNet : Type := mkIPNet { NetIP : IP; NetMask : IPMask }.

Definition IPv4len : nat := 4.
Definition IPv6len : nat := 16.

Definition v4InV6Prefix : list Z := [0; 0; 0; 0; 0; 0; 0; 0; 0; 0; 255; 255].

Definition bytesEqb (a b : list Z) : bool := bool_decide (a = b).

Definition allFF (b : list Z) : bool := forallb (Z.eqb 255) b.

Definition To4 (ip : IP) : option IP :=
  if Nat.eqb (length ip) IPv4len then Some ip
  else if Nat.eqb (length ip) IPv6len && bytesEqb (take 12 ip) v4InV6Prefix
       then Some (drop 12 ip)
       else None.

(** [CIDRMask ones bits]: [ones] 1-bits followed by 0s, [bits/8] bytes. *)
Fixpoint maskBytes (n : nat) (ones : Z) : list Z :=
  match n with
  | O => []
  | S n' =>
      (if 8 <=? ones then 255
       else if ones <=? 0 then 0
       else 256 - 2 ^ (8 - ones)) :: maskBytes n' (ones - 8)
  end.

Definition CIDRMask (ones bits : Z) : IPMask :=
  if (bits =? 32) || (bits =? 128) then
    if (0 <=? ones) && (ones <=? bits) then maskBytes (Z.to_nat (bits / 8)) ones
    else []
  else [].

Definition andBytes (a b : list Z) : list Z :=
  zip_with Z.land a b.

(** [IP.Mask]; Go's [nil] result for mismatched lengths is the empty list. *)
Definition Mask (ip : IP) (mask : IPMask) : IP :=
  let mask :=
    if Nat.eqb (length mask) IPv6len && Nat.eqb (length ip) IPv4len
       && allFF (take 12 mask)
    then drop 12 mask else mask in
  let ip :=
    if Nat.eqb (length mask) IPv4len && Nat.eqb (length ip) IPv6len
       && bytesEqb (take 12 ip) v4InV6Prefix
    then drop 12 ip else ip in
  if Nat.eqb (length ip) (length mask) then andBytes ip mask else [].

(** [(nil, nil)] is [([], [])]. *)
Definition networkNumberAndMask (n : IPNet) : IP * IPMask :=
  let oip :=
    match To4 (NetIP n) with
    | Some ip => Some ip
    | None => if Nat.eqb (length (NetIP n)) IPv6len then Some (NetIP n) else None
    end in
  match oip with
  | None => ([], [])
  | Some ip =>
      let m := NetMask n in
      if Nat.eqb (length m) IPv4len then
        if Nat.eqb (length ip) IPv4len then (ip, m) else ([], [])
      else if Nat.eqb (length m) IPv6len then
        if Nat.eqb (length ip) IPv4len then (ip, drop 12 m) else (ip, m)
      else ([], [])
  end.

(** [IPNet.Contains]: the two masked addresses are compared byte by byte. *)
Definition Contains (n : IPNet) (ip : IP) : bool :=
  let '(nn, m) := networkNumberAndMask n in
  let ip := match To4 ip with Some x => x | None => ip end in
  if Nat.eqb (length ip) (length nn)
  then bytesEqb (andBytes nn m) (andBytes ip m)
  else false.

(** Dotted-decimal text of a 4-byte address. *)
Definition dotted (ip : IP) : string :=
  strings.Join (strconv.Itoa <$> ip) ".".

(** The IPv4 part of [ParseIP] and [ParseCIDR]: four decimal fields of one
    to three digits without a leading zero, each at most 255, and a prefix
    length between 0 and 32. Both return the 16-byte form of the address,
    as Go does. They serve as the library parsers of concrete environments. *)
Definition parseOctet (s : string) : option Z :=
  match s with
  | EmptyString => None
  | String c rest =>
      if Ascii.eqb c "0" && negb (String.eqb rest EmptyString) then None
      else if Nat.ltb 3 (String.length s) then None
      else match strconv.digits 0 s with
           | Some n => if n <=? 255 then Some n else None
           | None => None
           end
  end.

Definition ParseIP4 (s : string) : option IP :=
  match parseOctet <$> strings.Split s "." with
  | [Some a; Some b; Some c; Some d] => Some (v4InV6Prefix ++ [a; b; c; d])
  | _ => None
  end.

Definition parsePrefixLen (s : string) : option Z :=
  match s with
  | EmptyString => None
  | _ => match strconv.digits 0 s with
         | Some n => if n <=? 32 then Some n else None
         | None => None
         end
  end.

Fixpoint cutSlash (w : string) (s : string) : option (string * string) :=
  match s with
  | EmptyString => None
  | String c s' =>
      if Ascii.eqb c "/" then Some (w, s')
      else cutSlash (w +:+ String c EmptyString) s'
  end.

Definition ParseCIDR4 (s : string) : option (IP * IPNet) :=
  match cutSlash EmptyString s with
  | None => None
  | Some (addr, mask) =>
      match ParseIP4 addr, parsePrefixLen mask with
      | Some ip, Some n =>
          let m := CIDRMask n 32 in
          Some (ip, mkIPNet (Mask ip m) m)
      | _, _ => None
      end
  end.

End net.

(** ** Data model *)

(** [PortInfo], [HostInfo], [ScanInfo] and [ScanResults] of [main.go]. The
    start time of [ScanInfo] plays no part in the engine and is left out;
    the [mutex] of [ScanResults] is visible through the trace of a [World]. *)
Record PortInfo : Type := mkPortInfo {
  Port : Z;
  State : string;
  Service : string
}.

Record HostInfo : Type := mkHostInfo {
  Host : string;
  Status : string;
  Ports : list PortInfo
}.

Record ScanInfo : Type := mkScanInfo {
  InfoTargets : list string;
  Scanner : string;
  InfoDiscoveryMode : string
}.

Record ScanResults : Type := mkScanResults {
  Info : ScanInfo;
  Hosts : list HostInfo;
  UnresponsiveHosts : Z
}.

(** The configuration half of [PDive2]; its [Results] pointer is the
    [World] that every operation takes and returns. *)
Record PDive2 : Type := mkPDive2 {
  Targets : list string;
  OutputDir : string;
  Threads : Z;
  DiscoveryMode : string;
  EnableNmap : bool
}.

Global Instance PortInfo_eq_dec : EqDecision PortInfo.
Proof. solve_decision. Defined.

Global Instance HostInfo_eq_dec : EqDecision HostInfo.
Proof. solve_decision. Defined.

(** ** The outside world *)

Record Env : Type := mkEnv {
  (** [net.ParseCIDR] and [net.ParseIP]; [None] is an error. *)
  ParseCIDR : string -> option (net.IP * net.IPNet);
  ParseIP : string -> option net.IP;
  (** the text [IP.String] gives an address that is not IPv4 *)
  IP6String : net.IP -> string;
  (** [ping -c 1 -W 2 host] exits with status 0 *)
  ping : string -> bool;
  (** [net.DialTimeout("tcp", addr, 3s)] connects *)
  dial : string -> bool;
  (** [client.Get(url)]: [None] is an error, otherwise the value of the
      [Server] header of the response, empty when the header is absent *)
  httpGet : string -> option string;
  (** [exec.LookPath] finds the program *)
  lookPath : string -> bool;
  (** standard output of [amass enum -d domain -passive], [None] on failure *)
  amass : string -> option string;
  (** name of the file [os.CreateTemp] makes, [None] on failure *)
  createTemp : option string;
  (** standard output of masscan run on the given host file, [None] on failure *)
  masscan : list string -> option string;
  (** the choice the Go scheduler makes at its k-th step *)
  sched : nat -> nat
}.

Inductive Mutex : Type :=
| ResultsMutex   (* p.Results.mutex *)
| LocalMu.       (* the [mu] local to HostDiscovery and scanHostPorts *)

Inductive Event : Type :=
| EvLock (m : Mutex)
| EvUnlock (m : Mutex)
| EvRLock
| EvRUnlock
| EvExec (cmd : string) (args : list string)
| EvDial (addr : string)
| EvHTTPGet (url : string)
| EvLookPath (file : string)
| EvCreateTemp
| EvWriteTemp (lines : list string)
| EvRemoveTemp.

Global Instance Mutex_eq_dec : EqDecision Mutex.
Proof. solve_decision. Defined.

Global Instance Event_eq_dec : EqDecision Event.
Proof. solve_decision. Defined.

Record World : Type := mkWorld {
  Results : ScanResults;
  trace : list Event
}.

Definition emit (evs : list Event) (w : World) : World :=
  mkWorld (Results w) (trace w ++ evs).

Definition setHosts (hs : list HostInfo) (r : ScanResults) : ScanResults :=
  mkScanResults (Info r) hs (UnresponsiveHosts r).

Definition setUnresponsive (n : Z) (r : ScanResults) : ScanResults :=
  mkScanResults (Info r) (Hosts r) n.

Definition update (f : ScanResults -> ScanResults) (w : World) : World :=
  mkWorld (f (Results w)) (trace w).

(** A blocking call: a process that is waited for, a TCP dial, an HTTP request. *)
Definition blocking (e : Event) : bool :=
  match e with
  | EvExec _ _ | EvDial _ | EvHTTPGet _ => true
  | _ => false
  end.

(** [lockDiscipline held tr]: no blocking call happens in [tr] while the
    lock of the result store is held ([held] says whether it is at the start). *)
Fixpoint lockDiscipline (held : bool) (tr : list Event) : bool :=
  match tr with
  | [] => true
  | e :: tr' =>
      match e with
      | EvLock ResultsMutex | EvRLock => lockDiscipline true tr'
      | EvUnlock ResultsMutex | EvRUnlock => lockDiscipline false tr'
      | _ => (negb held || negb (blocking e)) && lockDiscipline held tr'
      end
  end.

(** No process is started in [tr]. *)
Definition spawnsNoProcess (tr : list Event) : bool :=
  forallb (fun e => match e with EvExec _ _ => false | _ => true end) tr.

(** ** The worker pool

    Every scanning phase has the same shape: a buffered channel is filled
    with the items and closed, [n] goroutines each run
    [for x := range ch { work(x) }], and [wg.Wait()] returns when all of
    them have left their loop. [step] is one move of one goroutine; the
    pool is run under any scheduler by [run]. The effect of [work x] on
    the state shared by the goroutines is one critical section entered
    after the blocking call of the item, so it is applied when the item
    completes. [finished] logs the completed items, in completion order. *)
Module WorkerPool.

Inductive wstate (T : Type) : Type :=
| Idle            (* at the head of the [range] loop *)
| Busy (x : T)    (* inside [work x] *)
| Done.           (* channel drained: [wg.Done()] was called *)
Global Arguments Idle {T}.
Global Arguments Busy {T} x.
Global Arguments Done {T}.

Record pool (T St : Type) : Type := mkPool {
  chan : list T;
  workers : list (wstate T);
  shared : St;
  finished : list T
}.
Global Arguments mkPool {T St}.
Global Arguments chan {T St}.
Global Arguments workers {T St}.
Global Arguments shared {T St}.
Global Arguments finished {T St}.

Section Pool.
Context {T St : Type}.
Variable work : T -> St -> St.

Definition init (n : nat) (items : list T) (s : St) : pool T St :=
  mkPool items (replicate n Idle) s [].

Definition step (i : nat) (p : pool T St) : option (pool T St) :=
  match workers p !! i with
  | Some Idle =>
      match chan p with
      | x :: q => Some (mkPool q (<[i := Busy x]> (workers p)) (shared p) (finished p))
      | [] => Some (mkPool [] (<[i := Done]> (workers p)) (shared p) (finished p))
      end
  | Some (Busy x) =>
      Some (mkPool (chan p) (<[i := Idle]> (workers p))
              (work x (shared p)) (finished p ++ [x]))
  | Some Done | None => None
  end.

Definition isDone (w : wstate T) : bool :=
  match w with Done => true | _ => false end.

(** [wg.Wait()] returns in this state. *)
Definition allDone (p : pool T St) : bool := forallb isDone (workers p).

Fixpoint activeFrom (i : nat) (ws : list (wstate T)) : list nat :=
  match ws with
  | [] => []
  | w :: ws' => (if isDone w then [] else [i]) ++ activeFrom (S i) ws'
  end.

(** The goroutines that can move. *)
Definition active (p : pool T St) : list nat := activeFrom 0 (workers p).

Fixpoint run (sch : nat -> nat) (fuel k : nat) (p : pool T St) : pool T St :=
  match fuel with
  | O => p
  | S fuel' =>
      match active p with
      | [] => p
      | a :: _ =>
          let i := nth (sch k mod length (active p))%nat (active p) a in
          match step i p with
          | Some p' => run sch fuel' (S k) p'
          | None => p
          end
      end
  end.

(** Moves left before every goroutine is done. *)
Definition weight (w : wstate T) : nat :=
  match w with Done => 0 | Idle => 1 | Busy _ => 2 end.

Definition measure (p : pool T St) : nat :=
  (3 * length (chan p) + sum_list (weight <$> workers p))%nat.

(** The pool of [n] goroutines over [items], run to [wg.Wait()]. *)
Definition runPool (sch : nat -> nat) (n : nat) (items : list T) (s : St) : pool T St :=
  run sch (measure (init n items s)) 0 (init n items s).

(** The items inside a [work] call. *)
Definition busyItem (w : wstate T) : option T :=
  match w with Busy x => Some x | _ => None end.

Definition busy (ws : list (wstate T)) : list T := omap busyItem ws.

(** What every reachable state of a pool started on [items] and [s0]
    satisfies: each item is in exactly one of the channel, a [work] call
    and the log; a goroutine only leaves once the channel is drained; the
    shared state is the effect of the completed [work] calls. *)
Definition poolInv (items : list T) (s0 : St) (p : pool T St) : Prop :=
  finished p ++ busy (workers p) ++ chan p ≡ₚ items /\
  (Done ∈ workers p -> chan p = []) /\
  shared p = fold_left (fun s x => work x s) (finished p) s0.

(** Any interleaving of the goroutines. *)
Inductive steps : pool T St -> pool T St -> Prop :=
| steps_refl p : steps p p
| steps_step p i p' p'' : step i p = Some p' -> steps p' p'' -> steps p p''.

End Pool.

(** Number of goroutines started by [for i := 0; i < n; i++]. *)
Definition goroutines (n : Z) : nat := Z.to_nat n.

End WorkerPool.

(** [min] of [main.go]. *)
Definition min (a b : Z) : Z := if a <? b then a else b.

Definition len {A : Type} (l : list A) : Z := Z.of_nat (length l).

(** ** Target expansion *)

(** [inc]: the bytes are incremented from the last one, stopping at the
    first that does not wrap to 0. [j] counts the indices still to visit. *)
Fixpoint incFrom (j : nat) (ip : net.IP) : net.IP :=
  match j with
  | O => ip
  | S j' =>
      match ip !! j' with
      | Some b =>
          let b' := (b + 1) mod 256 in
          let ip' := <[j' := b']> ip in
          if 0 <? b' then ip' else incFrom j' ip'
      | None => ip
      end
  end.

Definition inc (ip : net.IP) : net.IP := incFrom (length ip) ip.

(** [removeDuplicates]: [keys] is the map of the strings already seen. *)
Definition seen (keys : gmap string bool) (item : string) : bool :=
  default false (keys !! item).

Fixpoint removeDuplicatesFrom (keys : gmap string bool) (result slice : list string)
  : list string :=
  match slice with
  | [] => result
  | item :: rest =>
      if negb (seen keys item)
      then removeDuplicatesFrom (<[item := true]> keys) (result ++ [item]) rest
      else removeDuplicatesFrom keys result rest
  end.

Definition removeDuplicates (slice : list string) : list string :=
  removeDuplicatesFrom ∅ [] slice.

(** [IP.String]: dotted decimal for an IPv4 address. *)
Definition IPString (env : Env) (ip : net.IP) : string :=
  match net.To4 ip with
  | Some p4 => net.dotted p4
  | None => IP6String env ip
  end.

(** [for ip := ip.Mask(ipnet.Mask); ipnet.Contains(ip); inc(ip)] *)
Fixpoint cidrLoop (env : Env) (fuel : nat) (ipnet : net.IPNet) (ip : net.IP)
    (allHosts : list string) : option (list string) :=
  match fuel with
  | O => None
  | S fuel' =>
      if net.Contains ipnet ip
      then cidrLoop env fuel' ipnet (inc ip) (allHosts ++ [IPString env ip])
      else Some allHosts
  end.

Fixpoint expandLoop (env : Env) (fuel : nat) (targets allHosts : list string)
  : option (list string) :=
  match targets with
  | [] => Some allHosts
  | target :: rest =>
      if strings.Contains target "/" then
        match ParseCIDR env target with
        | Some (ip, ipnet) =>
            match cidrLoop env fuel ipnet (net.Mask ip (net.NetMask ipnet)) allHosts with
            | Some allHosts' => expandLoop env fuel rest allHosts'
            | None => None
            end
        | None => expandLoop env fuel rest allHosts
        end
      else expandLoop env fuel rest (allHosts ++ [target])
  end.

(** [expandTargets]; [None] when a CIDR walk does not end within [fuel] steps. *)
Definition expandTargets (env : Env) (fuel : nat) (p : PDive2) : option (list string) :=
  removeDuplicates <$> expandLoop env fuel (Targets p) [].

(** ** Host discovery *)

Definition discoveryPorts : list Z := [80; 443; 22; 21; 25; 53; 135; 139; 445].

(** [fmt.Sprintf("%s:%d", host, port)] *)
Definition hostPort (host : string) (port : Z) : string :=
  host +:+ ":" +:+ strconv.Itoa port.

Definition pingHost (env : Env) (host : string) (w : World) : bool * World :=
  (ping env host, emit [EvExec "ping" ["-c"; "1"; "-W"; "2"; host]] w).

Fixpoint portDiscovery (env : Env) (host : string) (ports : list Z) (w : World)
  : bool * World :=
  match ports with
  | [] => (false, w)
  | port :: rest =>
      let w' := emit [EvDial (hostPort host port)] w in
      if dial env (hostPort host port) then (true, w')
      else portDiscovery env host rest w'
  end.

(** What the goroutines of HostDiscovery share: the local map [liveHosts]
    (guarded by the local [mu]) and, through [p], the result store. *)
Record discovery : Type := mkDiscovery {
  liveHosts : gmap string bool;
  hdWorld : World
}.

Definition markLive (host : string) (d : discovery) (w : World) : discovery :=
  mkDiscovery (<[host := true]> (liveHosts d))
              (emit [EvLock LocalMu; EvUnlock LocalMu] w).

(** Body of the phase-1 goroutine loop. *)
Definition pingWorker (env : Env) (host : string) (d : discovery) : discovery :=
  let '(ok, w) := pingHost env host (hdWorld d) in
  if ok then markLive host d w else mkDiscovery (liveHosts d) w.

(** Body of the phase-2 goroutine loop. *)
Definition portWorker (env : Env) (host : string) (d : discovery) : discovery :=
  let '(ok, w) := portDiscovery env host discoveryPorts (hdWorld d) in
  if ok then markLive host d w else mkDiscovery (liveHosts d) w.

Definition phase1 (env : Env) (p : PDive2) (allHosts : list string) (w : World)
  : WorkerPool.pool string discovery :=
  WorkerPool.runPool (pingWorker env) (sched env)
    (WorkerPool.goroutines (Threads p)) allHosts (mkDiscovery ∅ w).

Definition nonPing (live : gmap string bool) (allHosts : list string) : list string :=
  List.filter (fun host => negb (seen live host)) allHosts.

Definition phase2 (env : Env) (p : PDive2) (nonPingHosts : list string) (d : discovery)
  : WorkerPool.pool string discovery :=
  WorkerPool.runPool (portWorker env) (sched env)
    (WorkerPool.goroutines (min (Threads p) 20)) nonPingHosts d.

Definition upHost (host : string) : HostInfo := mkHostInfo host "up" [].

(** The batch written under the store's lock once both phases are over. *)
Definition commitDiscovery (allHosts liveHostsList : list string) (w : World) : World :=
  let w := emit [EvLock ResultsMutex] w in
  let w := update (fun r =>
             setUnresponsive (len allHosts - len liveHostsList)
               (setHosts (Hosts r ++ (upHost <$> liveHostsList)) r)) w in
  emit [EvUnlock ResultsMutex] w.

(** The state of the two phases just before the final batch. *)
Definition discoverFrom (env : Env) (p : PDive2) (allHosts : list string) (w : World)
  : discovery :=
  let d1 := WorkerPool.shared (phase1 env p allHosts w) in
  let nonPingHosts := nonPing (liveHosts d1) allHosts in
  if 0 <? len nonPingHosts
  then WorkerPool.shared (phase2 env p nonPingHosts d1)
  else d1.

(** [for host := range liveHosts]: the keys, in the order the map gives them. *)
Definition keysOf (m : gmap string bool) : list string := (map_to_list m).*1.

Definition HostDiscovery (env : Env) (fuel : nat) (p : PDive2) (w : World)
  : option (list string * World) :=
  match expandTargets env fuel p with
  | None => None
  | Some allHosts =>
      let d := discoverFrom env p allHosts w in
      let liveHostsList := keysOf (liveHosts d) in
      Some (liveHostsList, commitDiscovery allHosts liveHostsList (hdWorld d))
  end.

(** ** Port scanning *)

Definition commonPorts : list Z :=
  [21; 22; 23; 25; 53; 80; 110; 111; 135; 139; 143; 443; 993; 995; 1723;
   3306; 3389; 5432; 5900; 8080; 8443].

Definition openPort (port : Z) : PortInfo := mkPortInfo port "open" "".

Definition scanPort (env : Env) (host : string) (port : Z) (w : World) : bool * World :=
  (dial env (hostPort host port), emit [EvDial (hostPort host port)] w).

(** What the goroutines of scanHostPorts share. *)
Record portScan : Type := mkPortScan {
  openPorts : list PortInfo;
  psWorld : World
}.

(** Body of the per-port goroutine loop. *)
Definition scanWorker (env : Env) (host : string) (port : Z) (s : portScan) : portScan :=
  let '(ok, w) := scanPort env host port (psWorld s) in
  if ok
  then mkPortScan (openPorts s ++ [openPort port])
                  (emit [EvLock LocalMu; EvUnlock LocalMu] w)
  else mkPortScan (openPorts s) w.

(** [for i := range Hosts { if Hosts[i].Host == host { Hosts[i].Ports = ports; break } }] *)
Fixpoint setPortsFirst (host : string) (ports : list PortInfo) (hs : list HostInfo)
  : list HostInfo :=
  match hs with
  | [] => []
  | h :: rest =>
      if String.eqb (Host h) host
      then mkHostInfo (Host h) (Status h) ports :: rest
      else h :: setPortsFirst host ports rest
  end.

Definition portPool (env : Env) (p : PDive2) (host : string) (ports : list Z) (w : World)
  : WorkerPool.pool Z portScan :=
  WorkerPool.runPool (scanWorker env host) (sched env)
    (WorkerPool.goroutines (min (Threads p) 50)) ports (mkPortScan [] w).

Definition scanHostPorts (env : Env) (p : PDive2) (host : string) (ports : list Z)
    (w : World) : World :=
  let s := WorkerPool.shared (portPool env p host ports w) in
  let w := emit [EvLock ResultsMutex] (psWorld s) in
  let w := update (fun r => setHosts (setPortsFirst host (openPorts s) (Hosts r)) r) w in
  emit [EvUnlock ResultsMutex] w.

Definition hostPool (env : Env) (p : PDive2) (hosts : list string) (w : World)
  : WorkerPool.pool string World :=
  WorkerPool.runPool (fun host => scanHostPorts env p host commonPorts) (sched env)
    (WorkerPool.goroutines (Threads p)) hosts w.

Definition PortScan (env : Env) (p : PDive2) (hosts : list string) (w : World) : World :=
  WorkerPool.shared (hostPool env p hosts w).

(** ** Service identification *)

Definition serviceTable : list (Z * string) :=
  [(21, "ftp"); (22, "ssh"); (23, "telnet"); (25, "smtp"); (53, "dns");
   (80, "http"); (110, "pop3"); (135, "rpc"); (139, "netbios"); (143, "imap");
   (443, "https"); (993, "imaps"); (995, "pop3s"); (1723, "pptp");
   (3306, "mysql"); (3389, "rdp"); (5432, "postgresql"); (5900, "vnc");
   (8080, "http-alt"); (8443, "https-alt")].

Definition serviceMap : gmap Z string := list_to_map serviceTable.

Definition isHTTPFamily (service : string) : bool :=
  String.eqb service "http" || String.eqb service "https"
  || String.eqb service "http-alt" || String.eqb service "https-alt".

Definition serviceURL (service host : string) (port : Z) : string :=
  let protocol :=
    if String.eqb service "https" || String.eqb service "https-alt"
    then "https" else "http" in
  let portStr :=
    if negb (port =? 80) && negb (port =? 443)
    then ":" +:+ strconv.Itoa port else "" in
  protocol +:+ "://" +:+ host +:+ portStr.

Definition enumerateService (env : Env) (host : string) (port : Z)
    (serviceMap : gmap Z string) (w : World) : string * World :=
  match serviceMap !! port with
  | None => ("unknown", w)
  | Some service =>
      if isHTTPFamily service then
        let url := serviceURL service host port in
        let w' := emit [EvHTTPGet url] w in
        match httpGet env url with
        | Some server =>
            if negb (String.eqb server "")
            then (service +:+ " (" +:+ server +:+ ")", w')
            else (service, w')
        | None => (service, w')
        end
      else (service, w)
  end.

(** First index whose record carries the host identifier ([-1] is [None]). *)
Fixpoint findHostFrom (i : nat) (host : string) (hs : list HostInfo) : option nat :=
  match hs with
  | [] => None
  | h :: rest =>
      if String.eqb (Host h) host then Some i else findHostFrom (S i) host rest
  end.

Definition findHost (host : string) (hs : list HostInfo) : option nat :=
  findHostFrom 0 host hs.

(** [for j, port := range Hosts[hostIndex].Ports { ...Ports[j].Service = service }] *)
Fixpoint enumeratePorts (env : Env) (host : string) (ports : list PortInfo) (w : World)
  : list PortInfo * World :=
  match ports with
  | [] => ([], w)
  | port :: rest =>
      let '(service, w1) := enumerateService env host (Port port) serviceMap w in
      let '(rest', w2) := enumeratePorts env host rest w1 in
      (mkPortInfo (Port port) (State port) service :: rest', w2)
  end.

(** One iteration of the loop of ServiceEnumeration over [hosts]. *)
Definition serviceHost (env : Env) (host : string) (w : World) : World :=
  let w := emit [EvLock ResultsMutex] w in
  let hs := Hosts (Results w) in
  let w :=
    match findHost host hs with
    | Some hostIndex =>
        match hs !! hostIndex with
        | Some h =>
            let '(ports', w') := enumeratePorts env host (Ports h) w in
            update (setHosts (<[hostIndex := mkHostInfo (Host h) (Status h) ports']> hs)) w'
        | None => w
        end
    | None => w
    end in
  emit [EvUnlock ResultsMutex] w.

Definition ServiceEnumeration (env : Env) (hosts : list string) (w : World) : World :=
  fold_left (fun w host => serviceHost env host w) hosts w.

(** ** Passive discovery *)

Definition extractDomain (env : Env) (target : string) : string :=
  match ParseIP env target with
  | Some _ => ""
  | None =>
      match ParseCIDR env target with
      | Some _ => ""
      | None => strings.ToLower (strings.TrimSpace target)
      end
  end.

Definition nonEmptyLines (output : string) : list string :=
  List.filter (fun line => negb (String.eqb line ""))
    (strings.TrimSpace <$> strings.Split (strings.TrimSpace output) "010").

Definition amassDiscovery (env : Env) (domain : string) (w : World)
  : list string * World :=
  let w := emit [EvLookPath "amass"] w in
  if negb (lookPath env "amass") then ([], w)
  else
    let w := emit [EvExec "amass" ["enum"; "-d"; domain; "-passive"]] w in
    match amass env domain with
    | None => ([], w)
    | Some output => (nonEmptyLines output, w)
    end.

Fixpoint passiveLoop (env : Env) (targets discoveredHosts : list string) (w : World)
  : list string * World :=
  match targets with
  | [] => (discoveredHosts, w)
  | target :: rest =>
      let domain := extractDomain env target in
      if String.eqb domain "" then passiveLoop env rest discoveredHosts w
      else
        let '(hosts, w') := amassDiscovery env domain w in
        passiveLoop env rest (discoveredHosts ++ hosts) w'
  end.

Definition discoveredHost (host : string) : HostInfo := mkHostInfo host "discovered" [].

Definition PassiveDiscovery (env : Env) (p : PDive2) (w : World) : list string * World :=
  let '(found, w) := passiveLoop env (Targets p) [] w in
  let discoveredHosts := removeDuplicates found in
  let w := emit [EvLock ResultsMutex] w in
  let w := update (fun r => setHosts (Hosts r ++ (discoveredHost <$> discoveredHosts)) r) w in
  (discoveredHosts, emit [EvUnlock ResultsMutex] w).

(** ** The masscan adapter *)

(** One line of masscan's list output, as the parsing loop treats it:
    the host and the port record the line adds, if any. *)
Definition parseLine (line : string) : option (string * PortInfo) :=
  let line := strings.TrimSpace line in
  if negb (String.eqb line "") && negb (strings.HasPrefix line "#") then
    match strings.Fields line with
    | p0 :: p1 :: portStr :: host :: _ =>
        if String.eqb p0 "open" && String.eqb p1 "tcp" then
          match strconv.Atoi portStr with
          | Some port => Some (host, openPort port)
          | None => None
          end
        else None
    | _ => None
    end
  else None.

Definition addPort (masscanResults : gmap string (list PortInfo)) (host : string)
    (pi : PortInfo) : gmap string (list PortInfo) :=
  <[host := default [] (masscanResults !! host) ++ [pi]]> masscanResults.

Definition parseStep (masscanResults : gmap string (list PortInfo)) (line : string)
  : gmap string (list PortInfo) :=
  match parseLine line with
  | Some (host, pi) => addPort masscanResults host pi
  | None => masscanResults
  end.

Definition parseMasscan (output : string) : gmap string (list PortInfo) :=
  fold_left parseStep (strings.Split (strings.TrimSpace output) "010") ∅.

(** The fallback's "convert results format" loop. *)
Definition readBackStep (results : gmap string (list PortInfo)) (host : HostInfo)
  : gmap string (list PortInfo) :=
  if 0 <? len (Ports host) then <[Host host := Ports host]> results else results.

Definition readBack (hs : list HostInfo) : gmap string (list PortInfo) :=
  fold_left readBackStep hs ∅.

Definition fallbackScan (env : Env) (p : PDive2) (hosts : list string) (w : World)
  : gmap string (list PortInfo) * World :=
  let w := PortScan env p hosts w in
  let w := emit [EvRLock] w in
  let results := readBack (Hosts (Results w)) in
  (results, emit [EvRUnlock] w).

Definition appendPorts (ports : list PortInfo) (h : HostInfo) : HostInfo :=
  mkHostInfo (Host h) (Status h) (Ports h ++ ports).

(** One iteration of the merge loop over [hosts]. *)
Definition mergeHost (masscanResults : gmap string (list PortInfo))
    (hs : list HostInfo) (host : string) : list HostInfo :=
  let '(hs, hostIndex) :=
    match findHost host hs with
    | Some i => (hs, i)
    | None => (hs ++ [upHost host], length hs)
    end in
  match masscanResults !! host with
  | Some ports => alter (appendPorts ports) hostIndex hs
  | None => hs
  end.

Definition mergeResults (masscanResults : gmap string (list PortInfo))
    (hosts : list string) (hs : list HostInfo) : list HostInfo :=
  fold_left (mergeHost masscanResults) hosts hs.

Definition masscanArgs (tmpfile : string) : list string :=
  ["-iL"; tmpfile; "-p1-65535"; "--rate"; "1000"; "--output-format"; "list"].

Definition MasscanScan (env : Env) (p : PDive2) (hosts : list string) (w : World)
  : gmap string (list PortInfo) * World :=
  if len hosts =? 0 then (∅, w)
  else
    let w := emit [EvLookPath "masscan"] w in
    if negb (lookPath env "masscan") then fallbackScan env p hosts w
    else
      let w := emit [EvCreateTemp] w in
      match createTemp env with
      | None => (∅, w)
      | Some tmpfile =>
          let w := emit [EvWriteTemp hosts; EvExec "masscan" (masscanArgs tmpfile)] w in
          match masscan env hosts with
          | None =>
              let '(results, w) := fallbackScan env p hosts w in
              (results, emit [EvRemoveTemp] w)
          | Some output =>
              let masscanResults := parseMasscan output in
              let w := emit [EvLock ResultsMutex] w in
              let w := update (fun r =>
                         setHosts (mergeResults masscanResults hosts (Hosts r)) r) w in
              let w := emit [EvUnlock ResultsMutex] w in
              (masscanResults, emit [EvRemoveTemp] w)
          end
      end.

(** ** Concrete environments and inputs used by the examples below *)

Definition quietEnv : Env :=
  mkEnv net.ParseCIDR4 net.ParseIP4 (fun _ => "::")
        (fun _ => false) (fun _ => false) (fun _ => None)
        (fun _ => false) (fun _ => None) None (fun _ => None) (fun k => k).

Definition emptyResults : ScanResults :=
  mkScanResults (mkScanInfo [] "PDive2 v2.0" "active") [] 0.

Definition emptyWorld : World := mkWorld emptyResults [].

Definition config (targets : list string) (threads : Z) : PDive2 :=
  mkPDive2 targets "recon_output" threads "active" false.

Definition nginxEnv : Env :=
  mkEnv net.ParseCIDR4 net.ParseIP4 (fun _ => "::")
        (fun _ => false) (fun _ => false)
        (fun url => if String.eqb url "http://10.0.0.5" then Some "nginx" else None)
        (fun _ => false) (fun _ => None) None (fun _ => None) (fun k => k).

(** No operation on the lock of the result store. *)
Definition storeLockFree (tr : list Event) : bool :=
  forallb (fun e => match e with
                    | EvLock ResultsMutex | EvUnlock ResultsMutex
                    | EvRLock | EvRUnlock => false
                    | _ => true
                    end) tr.

(** [w'] is [w] with a trace longer by a segment that satisfies [P]. *)
Definition extendsBy (P : list Event -> Prop) (w w' : World) : Prop :=
  exists tr, trace w' = trace w ++ tr /\ P tr.

(** A trace predicate that holds of the empty trace and of concatenations. *)
Record segmentClosed (P : list Event -> Prop) : Prop := mkSegmentClosed {
  segment_nil : P [];
  segment_app : forall a b, P a -> P b -> P (a ++ b)
}.

Definition pingEnv : Env :=
  mkEnv net.ParseCIDR4 net.ParseIP4 (fun _ => "::")
        (fun host => String.eqb host "10.0.0.4") (fun _ => false) (fun _ => None)
        (fun _ => false) (fun _ => None) None (fun _ => None) (fun k => k).

Definition webWorld : World :=
  mkWorld (setHosts [mkHostInfo "10.0.0.5" "up" [openPort 80]] emptyResults) [].

Definition sshEnv : Env :=
  mkEnv net.ParseCIDR4 net.ParseIP4 (fun _ => "::")
        (fun _ => false) (fun addr => String.eqb addr "10.0.0.5:22") (fun _ => None)
        (fun _ => false) (fun _ => None) None (fun _ => None) (fun k => k).

Definition twoHosts : World :=
  mkWorld (setHosts [upHost "10.0.0.5"; upHost "10.0.0.6"] emptyResults) [].


Definition masscanEnv : Env :=
  mkEnv net.ParseCIDR4 net.ParseIP4 (fun _ => "::")
        (fun _ => false) (fun _ => false) (fun _ => None)
        (fun file => String.eqb file "masscan") (fun _ => None)
        (Some "/tmp/masscan_targets_1.txt")
        (fun _ => Some "open tcp 80 10.0.0.5 169000000
closed tcp 81 10.0.0.5 169000000
open tcp http 10.0.0.5 169000000
open tcp 443
") (fun k => k).


(** Deduplication in first-seen order, written directly: an element stays
    where it first occurs and its later occurrences are dropped. *)
Fixpoint firstSeen (l : list string) : list string :=
  match l with
  | [] => []
  | x :: rest => x :: filter (fun y => y <> x) (firstSeen rest)
  end.

(** The fallback ports dialled for a host: the list up to and including
    the first port that connects. *)
Fixpoint probedPorts (env : Env) (host : string) (ports : list Z) : list Z :=
  match ports with
  | [] => []
  | port :: rest =>
      port :: if dial env (hostPort host port) then [] else probedPorts env host rest
  end.

Definition respondsOnPort (env : Env) (host : string) (ports : list Z) : bool :=
  existsb (fun port => dial env (hostPort host port)) ports.



(** Every host identifier occurs at most once in [Hosts]. *)
Definition hostsUnique (r : ScanResults) : Prop := NoDup (Host <$> Hosts r).

(** No host record holds a port number twice. *)
Definition portsUnique (r : ScanResults) : Prop :=
  Forall (fun h => NoDup (Port <$> Ports h)) (Hosts r).

Definition amassEnv : Env :=
  mkEnv net.ParseCIDR4 net.ParseIP4 (fun _ => "::")
        (fun host => String.eqb host "example.com") (fun _ => false) (fun _ => None)
        (fun file => String.eqb file "amass")
        (fun _ => Some "example.com
www.example.com
") None (fun _ => None) (fun k => k).

Definition rescanEnv : Env :=
  mkEnv net.ParseCIDR4 net.ParseIP4 (fun _ => "::")
        (fun _ => false) (fun addr => String.eqb addr "10.0.0.5:80") (fun _ => None)
        (fun file => String.eqb file "masscan") (fun _ => None)
        (Some "/tmp/masscan_targets_1.txt")
        (fun _ => Some "open tcp 80 10.0.0.5 169000000") (fun k => k).

Definition oneHost : World :=
  mkWorld (setHosts [upHost "10.0.0.5"] emptyResults) [].

(** The whole IPv4 space, as [ParseCIDR] returns it for "0.0.0.0/0". *)
Definition everything : net.IPNet := net.mkIPNet [0; 0; 0; 0] [0; 0; 0; 0].

(** The number a big-endian byte slice stands for. *)
Fixpoint val (ip : list Z) : Z :=
  match ip with
  | [] => 0
  | x :: rest => x * 256 ^ len rest + val rest
  end.

(** The four bytes of a number below 2^32. *)
Definition bytesOf (n : Z) : list Z :=
  [n / 16777216; (n / 65536) mod 256; (n / 256) mod 256; n mod 256].

Definition isByte (x : Z) : Prop := 0 <= x < 256.

Definition byteMaskTable : bool :=
  forallb (fun x => forallb (fun k => Z.land x (256 - 2 ^ k) =? x - x mod 2 ^ k)
                      (seqZ 0 9)) (seqZ 0 256).

(** Number of low bits a mask byte clears, given the 1-bits left for it. *)
Definition clearedBits (ones : Z) : Z := Z.max 0 (Z.min 8 (8 - ones)).

(** The block of the address [ip0] with prefix length [p], as [ParseCIDR]
    returns it. *)
Definition blockOf (ip0 : net.IP) (p : Z) : net.IPNet :=
  net.mkIPNet (net.andBytes ip0 (net.maskBytes 4 p)) (net.maskBytes 4 p).

(** First address of the block. *)
Definition networkNumber (ip0 : net.IP) (p : Z) : Z :=
  val ip0 - val ip0 mod 2 ^ (32 - p).

(** The byte [sep] does not occur in the string. *)
Fixpoint noSep (sep : ascii) (s : string) : bool :=
  match s with
  | EmptyString => true
  | String c s' => negb (Ascii.eqb c sep) && noSep sep s'
  end.

Definition octetTable : bool :=
  forallb (fun b => noSep "." (strconv.Itoa b)
                    && bool_decide (net.parseOctet (strconv.Itoa b) = Some b))
          (seqZ 0 256).

(** Whether the store's lock is held after [tr], given whether it was before. *)
Fixpoint endsHeld (held : bool) (tr : list Event) : bool :=
  match tr with
  | [] => held
  | e :: tr' =>
      match e with
      | EvLock ResultsMutex | EvRLock => endsHeld true tr'
      | EvUnlock ResultsMutex | EvRUnlock => endsHeld false tr'
      | _ => endsHeld held tr'
      end
  end.

(** A trace segment that starts and ends with the store's lock free and
    makes no blocking call while it holds it. *)
Definition disciplined (tr : list Event) : Prop :=
  lockDiscipline false tr = true /\ endsHeld false tr = false.

(** The label enumerateService gives a port of a host. *)
Definition serviceLabel (env : Env) (host : string) (port : Z) : string :=
  (enumerateService env host port serviceMap emptyWorld).1.

Definition relabel (env : Env) (host : string) (pi : PortInfo) : PortInfo :=
  mkPortInfo (Port pi) (State pi) (serviceLabel env host (Port pi)).

(** Same host, status, port numbers and states; service labels may differ. *)
Definition samePorts (h h' : HostInfo) : Prop :=
  Host h' = Host h /\ Status h' = Status h
  /\ Port <$> Ports h' = Port <$> Ports h /\ State <$> Ports h' = State <$> Ports h.

Definition labelled (env : Env) (host : string) (h : HostInfo) : Prop :=
  Forall (fun pi => Service pi = serviceLabel env host (Port pi)) (Ports h).

(** No operation on the temporary host file. *)
Definition noTempEvents (tr : list Event) : bool :=
  forallb (fun e => match e with
                    | EvCreateTemp | EvWriteTemp _ | EvRemoveTemp => false
                    | _ => true
                    end) tr.

(** [hostMap] of RunScan: the names that have a record. *)
Definition hostMapOf (hs : list HostInfo) : gmap string bool :=
  fold_left (fun hostMap host => <[Host host := true]> hostMap) hs ∅.

Definition ensureStep (hostMap : gmap string bool) (hs : list HostInfo) (host : string)
  : list HostInfo :=
  if negb (seen hostMap host) then hs ++ [upHost host] else hs.

(** The block of RunScan that gives every discovered host a record. *)
Definition ensureHosts (allDiscoveredHosts : list string) (w : World) : World :=
  let w := emit [EvLock ResultsMutex] w in
  let hostMap := hostMapOf (Hosts (Results w)) in
  let w := update (fun r =>
             setHosts (fold_left (ensureStep hostMap) allDiscoveredHosts (Hosts r)) r) w in
  emit [EvUnlock ResultsMutex] w.

(** The loop of LoadTargetsFromFile over the lines the scanner gives. *)
Definition scanTargets (lines : list string) : list string :=
  List.filter (fun target => negb (String.eqb target "")
                             && negb (strings.HasPrefix target "#"))
    (strings.TrimSpace <$> lines).

(** [file] is what reading the file gives: [None] when [os.Open] fails,
    otherwise the lines of the scanner and whether [scanner.Err] reports
    an error. [None] is the error result. *)
Definition LoadTargetsFromFile (file : option (list string * bool)) : option (list string) :=
  match file with
  | None => None
  | Some (lines, readError) => if readError then None else Some (scanTargets lines)
  end.

(** The value [strconv.digits] gives the digits of [d] after [acc]. *)
Fixpoint digitsVal (acc : Z) (d : Decimal.uint) : Z :=
  match d with
  | Decimal.Nil => acc
  | Decimal.D0 l => digitsVal (10 * acc + 0) l
  | Decimal.D1 l => digitsVal (10 * acc + 1) l
  | Decimal.D2 l => digitsVal (10 * acc + 2) l
  | Decimal.D3 l => digitsVal (10 * acc + 3) l
  | Decimal.D4 l => digitsVal (10 * acc + 4) l
  | Decimal.D5 l => digitsVal (10 * acc + 5) l
  | Decimal.D6 l => digitsVal (10 * acc + 6) l
  | Decimal.D7 l => digitsVal (10 * acc + 7) l
  | Decimal.D8 l => digitsVal (10 * acc + 8) l
  | Decimal.D9 l => digitsVal (10 * acc + 9) l
  end.

(** What RunScan asks of the system besides [Env]. *)
Record Sys : Type := mkSys {
  (** [net.LookupHost] resolves the name *)
  LookupHost : string -> bool;
  (** [os.MkdirAll] of the output directory succeeds *)
  MkdirAll : bool;
  (** [os.Create] of the text report and of the CSV file succeeds *)
  CreateTxt : bool;
  CreateCsv : bool;
  (** [ScanInfo.StartTime] in the layout the reports print *)
  StartTime : string
}.

Definition isValidTarget (env : Env) (sys : Sys) (target : string) : bool :=
  match ParseCIDR env target with
  | Some _ => true
  | None =>
      match ParseIP env target with
      | Some _ => true
      | None => LookupHost sys target
      end
  end.

(** ValidateTargets: the result and the configuration with its targets replaced. *)
Definition ValidateTargets (env : Env) (sys : Sys) (p : PDive2) : bool * PDive2 :=
  let validTargets := List.filter (isValidTarget env sys) (Targets p) in
  (0 <? len validTargets,
   mkPDive2 validTargets (OutputDir p) (Threads p) (DiscoveryMode p) (EnableNmap p)).

(** [totalPorts] of the report's summary. *)
Definition totalPorts (hs : list HostInfo) : Z :=
  fold_left (fun total host => total + len (Ports host)) hs 0.

Definition serviceName (port : PortInfo) : string :=
  if String.eqb (Service port) "" then "unknown" else Service port.

Definition csvHeader : list string :=
  ["Host"; "Port"; "Protocol"; "State"; "Service"; "Scan_Time"].

Definition portRecord (scanTime : string) (host : HostInfo) (port : PortInfo)
  : list string :=
  [Host host; strconv.Itoa (Port port); "tcp"; State port; serviceName port; scanTime].

(** The records the CSV loop writes for one host. *)
Definition hostRecords (scanTime : string) (host : HostInfo) : list (list string) :=
  if 0 <? len (Ports host)
  then portRecord scanTime host <$> Ports host
  else [[Host host; ""; ""; "host_up"; "no_open_ports"; scanTime]].

Definition csvRecords (scanTime : string) (hs : list HostInfo) : list (list string) :=
  csvHeader :: concat (hostRecords scanTime <$> hs).

(** GenerateReport: the records of the CSV file when it is written, and
    the reads of the store. The text report prints the same store and is
    not modelled. *)
Definition GenerateReport (sys : Sys) (w : World) : option (list (list string)) * World :=
  if negb (MkdirAll sys) then (None, w)
  else
    let w := emit [EvRLock; EvRUnlock] w in
    let w := if CreateTxt sys then emit [EvRLock; EvRUnlock] w else w in
    if CreateCsv sys
    then (Some (csvRecords (StartTime sys) (Hosts (Results w))),
          emit [EvRLock; EvRUnlock] w)
    else (None, w).

Definition passiveCsvHeader : list string := ["Host"; "Discovery_Method"; "Scan_Time"].

Definition passiveCsvRecords (scanTime : string) (hs : list HostInfo)
  : list (list string) :=
  passiveCsvHeader :: ((fun host => [Host host; "passive"; scanTime]) <$> hs).

Definition GeneratePassiveReport (sys : Sys) (w : World)
  : option (list (list string)) * World :=
  if negb (MkdirAll sys) then (None, w)
  else
    let w := emit [EvRLock; EvRUnlock] w in
    let w := if CreateTxt sys then emit [EvRLock; EvRUnlock] w else w in
    if CreateCsv sys
    then (Some (passiveCsvRecords (StartTime sys) (Hosts (Results w))),
          emit [EvRLock; EvRUnlock] w)
    else (None, w).

(** RunScan: the CSV records written, if any, and the final world; [None]
    when the expansion of the targets does not end. *)
Definition RunScan (env : Env) (sys : Sys) (fuel : nat) (p : PDive2) (w : World)
  : option (option (list (list string)) * World) :=
  let '(valid, p) := ValidateTargets env sys p in
  if negb valid then Some (None, w)
  else if String.eqb (DiscoveryMode p) "passive" then
    let '(discoveredHosts, w) := PassiveDiscovery env p w in
    if len discoveredHosts =? 0 then Some (None, w)
    else Some (GeneratePassiveReport sys w)
  else
    let '(amassHosts, w) := PassiveDiscovery env p w in
    match HostDiscovery env fuel p w with
    | None => None
    | Some (liveHosts, w) =>
        let allDiscoveredHosts := removeDuplicates (amassHosts ++ liveHosts) in
        if len allDiscoveredHosts =? 0 then Some (None, w)
        else
          let w := ensureHosts allDiscoveredHosts w in
          let '(masscanResults, w) := MasscanScan env p allDiscoveredHosts w in
          let w := if 0 <? Z.of_nat (size masscanResults)
                   then ServiceEnumeration env allDiscoveredHosts w
                   else w in
          Some (GenerateReport sys w)
    end.

(** The events passive mode may produce: lock operations, looking a
    program up, and running amass. *)
Definition passiveEvent (e : Event) : bool :=
  match e with
  | EvLock _ | EvUnlock _ | EvRLock | EvRUnlock | EvLookPath _ => true
  | EvExec cmd _ => String.eqb cmd "amass"
  | _ => false
  end.

Definition passiveOnly (tr : list Event) : bool := forallb passiveEvent tr.

Definition resolvingSys : Sys := mkSys (fun _ => true) true true true "2026-01-01 00:00:00".

Definition passiveConfig (targets : list string) (threads : Z) : PDive2 :=
  mkPDive2 targets "recon_output" threads "passive" false.

Definition quiet (tr : list Event) : Prop := passiveOnly tr = true /\ disciplined tr.

(** * Properties *)

(** ** The worker pool *)

Section PoolFacts.
Import WorkerPool.
Context {T St : Type}.
Variable work : T -> St -> St.
Implicit Types (p : pool T St) (ws : list (wstate T)).

Local Open Scope nat_scope.

Lemma busy_insert ws i w w' :
  ws !! i = Some w ->
  busy (<[i := w']> ws) ++ option_list (busyItem w)
  ≡ₚ busy ws ++ option_list (busyItem w').
Proof.
  revert i. induction ws as [|a ws IH]; intros [|i] Hi; simplify_eq/=.
  - unfold busy. simpl. destruct (busyItem w), (busyItem w'); simpl.
    all: rewrite ?app_nil_r, <-?Permutation_cons_append. all: try done.
    apply perm_swap.
  - unfold busy in *. simpl. destruct (busyItem a); simpl; [f_equiv|]; by apply IH.
Qed.

Lemma weight_insert ws i w w' :
  ws !! i = Some w ->
  sum_list (weight <$> <[i := w']> ws) + weight w
  = sum_list (weight <$> ws) + weight w'.
Proof.
  revert i. induction ws as [|a ws IH]; intros [|i] Hi; simplify_eq/=.
  - lia.
  - specialize (IH _ Hi). lia.
Qed.

Lemma step_measure i p p' : step work i p = Some p' -> measure p' < measure p.
Proof.
  unfold step, measure. intros H.
  destruct (workers p !! i) as [[|x|]|] eqn:Hi; try done.
  - destruct (chan p) as [|x q] eqn:Hc; simplify_eq/=.
    + pose proof (weight_insert _ _ _ Done Hi). simpl in *. lia.
    + pose proof (weight_insert _ _ _ (Busy x) Hi). simpl in *. lia.
  - simplify_eq/=. pose proof (weight_insert _ _ _ Idle Hi). simpl in *. lia.
Qed.


Lemma steps_trans p1 p2 p3 : steps work p1 p2 -> steps work p2 p3 -> steps work p1 p3.
Proof. induction 1; eauto using steps. Qed.


(** The goroutines that can move are those that are not done. *)
Lemma elem_of_activeFrom ws k i :
  i ∈ activeFrom k ws <-> exists w, ws !! (i - k) = Some w /\ isDone w = false /\ k <= i.
Proof.
  revert k. induction ws as [|a ws IH]; intros k; simpl.
  - split; [by intros ?%elem_of_nil | by intros (? & ? & _)].
  - rewrite elem_of_app, IH. split.
    + intros [Hi | (w & Hw & Hd & Hk)].
      * destruct (isDone a) eqn:Ha; [by apply elem_of_nil in Hi|].
        apply list_elem_of_singleton in Hi as ->. exists a.
        by rewrite Nat.sub_diag.
      * exists w. replace (i - k) with (S (i - S k)) by lia. split_and!; [done..|lia].
    + intros (w & Hw & Hd & Hk). destruct (decide (i = k)) as [->|].
      * rewrite Nat.sub_diag in Hw. simplify_eq/=. left. rewrite Hd. by apply list_elem_of_singleton.
      * right. exists w. replace (i - k) with (S (i - S k)) in Hw by lia.
        split_and!; [done..|lia].
Qed.

Lemma elem_of_active p i :
  i ∈ active p <-> exists w, workers p !! i = Some w /\ isDone w = false.
Proof.
  unfold active. rewrite elem_of_activeFrom. rewrite Nat.sub_0_r.
  split; [intros (w & ? & ? & _) | intros (w & ? & ?)]; exists w; split_and?; auto with lia.
Qed.

Lemma active_step p i : i ∈ active p -> is_Some (step work i p).
Proof.
  intros (w & Hw & Hd)%elem_of_active. unfold step. rewrite Hw.
  destruct w; [destruct (chan p)|..]; by eauto.
Qed.

Lemma active_nil p : active p = [] <-> allDone p = true.
Proof.
  unfold allDone. rewrite forallb_forall. split.
  - intros Ha w Hin. apply list_elem_of_In, list_elem_of_lookup in Hin as [i Hi].
    destruct (isDone w) eqn:Hd; [done|].
    assert (i ∈ active p) as Hact by (apply elem_of_active; eauto).
    rewrite Ha in Hact. by apply elem_of_nil in Hact.
  - intros Hall. destruct (active p) as [|i l] eqn:Ha; [done|].
    assert (i ∈ active p) as (w & Hw & Hd)%elem_of_active by (rewrite Ha; left).
    rewrite Hall in Hd; [done|]. apply list_elem_of_In. eauto using list_elem_of_lookup_2.
Qed.

Lemma run_steps sch fuel k p : steps work p (run work sch fuel k p).
Proof.
  revert k p. induction fuel as [|fuel IH]; intros k p; simpl; [constructor|].
  destruct (active p) as [|a l]; [constructor|].
  destruct (step work _ p) eqn:Hs; [|constructor].
  eapply steps_step; eauto.
Qed.


Lemma elem_of_insert_inv ws i (w w' : wstate T) :
  w ∈ <[i := w']> ws -> w = w' \/ w ∈ ws.
Proof.
  intros [j Hj]%list_elem_of_lookup.
  destruct (decide (i = j)) as [->|Hne].
  - destruct (decide (j < length ws)) as [Hlt|Hge].
    + rewrite list_lookup_insert_eq in Hj by done. left. congruence.
    + rewrite list_insert_ge in Hj by lia. right. eauto using list_elem_of_lookup_2.
  - rewrite list_lookup_insert_ne in Hj by done. right. eauto using list_elem_of_lookup_2.
Qed.

Lemma init_inv n items s0 : poolInv work items s0 (init n items s0).
Proof.
  unfold poolInv, init. simpl. split_and!; [|by intros [[=] _]%elem_of_replicate|done].
  assert (busy (replicate n (@Idle T)) = []) as ->; [|done].
  induction n; [done|]. unfold busy in *. by simpl.
Qed.

Lemma step_inv items s0 i p p' :
  step work i p = Some p' -> poolInv work items s0 p -> poolInv work items s0 p'.
Proof.
  unfold step, poolInv. intros H (Hperm & Hdone & Hsh).
  destruct (workers p !! i) as [[|x|]|] eqn:Hi; try done.
  - destruct (chan p) as [|x q] eqn:Hc; simplify_eq/=.
    + pose proof (busy_insert _ _ _ Done Hi) as Hb. simpl in Hb.
      rewrite !app_nil_r in Hb. rewrite !app_nil_r. rewrite app_nil_r in Hperm.
      split_and!; [by rewrite Hb|done..].
    + pose proof (busy_insert _ _ _ (Busy x) Hi) as Hb. simpl in Hb.
      rewrite app_nil_r in Hb.
      split_and!; [|intros [[=]|Hd]%elem_of_insert_inv; by specialize (Hdone Hd)|done].
      rewrite <- Hperm, Hb. by rewrite <- !(assoc_L (++)).
  - simplify_eq/=. pose proof (busy_insert _ _ _ Idle Hi) as Hb. simpl in Hb.
    rewrite app_nil_r in Hb. split_and!.
    + rewrite <- Hperm, <- Hb. rewrite <- !(assoc_L (++)). f_equiv.
      rewrite !(assoc_L (++)). f_equiv. apply Permutation_app_comm.
    + intros [[=]|Hd]%elem_of_insert_inv; auto.
    + by rewrite fold_left_app, <- Hsh.
Qed.

Lemma steps_inv items s0 p p' :
  steps work p p' -> poolInv work items s0 p -> poolInv work items s0 p'.
Proof. induction 1; eauto using step_inv. Qed.




Lemma runPool_reachable sch n items s0 :
  steps work (init n items s0) (runPool work sch n items s0).
Proof. apply run_steps. Qed.


Lemma runPool_inv sch n items s0 : poolInv work items s0 (runPool work sch n items s0).
Proof. eapply steps_inv; [apply runPool_reachable | apply init_inv]. Qed.

Lemma runPool_shared sch n items s0 :
  shared (runPool work sch n items s0)
  = fold_left (fun s x => work x s) (finished (runPool work sch n items s0)) s0.
Proof. apply runPool_inv. Qed.


Lemma runPool_finished_sub sch n items s0 :
  finished (runPool work sch n items s0) ⊆+ items.
Proof.
  destruct (runPool_inv sch n items s0) as (Hperm & _).
  etrans; [|apply Permutation_submseteq, Hperm].
  by apply submseteq_inserts_r.
Qed.

Lemma runPool_zero sch items s0 :
  runPool work sch 0 items s0 = init 0 items s0.
Proof. unfold runPool. by destruct (measure _). Qed.

(** A property kept by every [work] call is kept by the pool. *)
Lemma runPool_preserves (I : St -> Prop) sch n items s0 :
  I s0 -> (forall x s, x ∈ items -> I s -> I (work x s)) ->
  I (shared (runPool work sch n items s0)).
Proof.
  intros H0 Hwork. rewrite runPool_shared.
  pose proof (runPool_finished_sub sch n items s0) as Hsub.
  revert Hsub H0. generalize (finished (runPool work sch n items s0)) as l.
  intros l. revert s0. induction l as [|x l IH] using rev_ind; intros s0 Hsub H0; [done|].
  rewrite fold_left_app. simpl. apply Hwork.
  - eapply elem_of_submseteq; [|exact Hsub]. set_solver.
  - apply IH; [|done]. etrans; [|exact Hsub]. by apply submseteq_inserts_r.
Qed.

End PoolFacts.

Lemma min_spec (a b : Z) : min a b = Z.min a b.
Proof. unfold min. destruct (Z.ltb_spec a b); lia. Qed.


Lemma goroutines_nonpos (n : Z) : n <= 0 -> WorkerPool.goroutines n = 0%nat.
Proof. unfold WorkerPool.goroutines. lia. Qed.




(** ** Service identification *)

Lemma append_empty_r (s : string) : s +:+ "" = s.
Proof.
  induction s as [|c s IH]; [done|].
  change (String c s +:+ "") with (String c (s +:+ "")). by rewrite IH.
Qed.





(** ** Traces *)

Section Traces.
Variable P : list Event -> Prop.
Hypothesis HP : segmentClosed P.

Lemma extendsBy_refl w : extendsBy P w w.
Proof. exists []. split; [by rewrite app_nil_r | apply HP]. Qed.

Lemma extendsBy_trans w1 w2 w3 :
  extendsBy P w1 w2 -> extendsBy P w2 w3 -> extendsBy P w1 w3.
Proof.
  intros (a & Ha & HPa) (b & Hb & HPb). exists (a ++ b).
  split; [by rewrite Hb, Ha, (assoc_L (++)) | by apply HP].
Qed.

Lemma extendsBy_emit evs w : P evs -> extendsBy P w (emit evs w).
Proof. intros Hevs. by exists evs. Qed.

Lemma extendsBy_update f w w' : extendsBy P w w' -> extendsBy P w (update f w').
Proof. intros (a & Ha & HPa). by exists a. Qed.

(** A pool whose [work] calls each add a [P] segment adds a [P] segment. *)
Lemma runPool_extendsBy {T St : Type} (world : St -> World) (work : T -> St -> St)
    sch n items s0 :
  (forall x s, extendsBy P (world s) (world (work x s))) ->
  extendsBy P (world s0) (world (WorkerPool.shared (WorkerPool.runPool work sch n items s0))).
Proof.
  intros Hwork.
  apply (runPool_preserves work (fun s => extendsBy P (world s0) (world s))).
  - apply extendsBy_refl.
  - intros x s _ Hs. eapply extendsBy_trans; [exact Hs | apply Hwork].
Qed.
End Traces.

Lemma storeLockFree_closed : segmentClosed (fun tr => storeLockFree tr = true).
Proof.
  split; [done|]. intros a b Ha Hb. unfold storeLockFree in *.
  by rewrite forallb_app, Ha, Hb.
Qed.

(** ** Host discovery: the two phases leave the result store alone *)

Lemma portDiscovery_results env host ports w :
  Results (portDiscovery env host ports w).2 = Results w.
Proof.
  revert w. induction ports as [|port ports IH]; intros w; simpl; [done|].
  destruct (dial env _); [done|]. by rewrite IH.
Qed.

Lemma portDiscovery_trace env host ports w :
  extendsBy (fun tr => storeLockFree tr = true) w (portDiscovery env host ports w).2.
Proof.
  revert w. induction ports as [|port ports IH]; intros w; simpl.
  - apply extendsBy_refl, storeLockFree_closed.
  - destruct (dial env _); simpl.
    + by apply extendsBy_emit.
    + eapply extendsBy_trans; [apply storeLockFree_closed | | apply IH].
      by apply extendsBy_emit.
Qed.

Lemma pingWorker_results env host d :
  Results (hdWorld (pingWorker env host d)) = Results (hdWorld d).
Proof. unfold pingWorker, pingHost. by destruct (ping env host). Qed.

Lemma portWorker_results env host d :
  Results (hdWorld (portWorker env host d)) = Results (hdWorld d).
Proof.
  unfold portWorker.
  pose proof (portDiscovery_results env host discoveryPorts (hdWorld d)) as H.
  destruct (portDiscovery env host discoveryPorts (hdWorld d)) as [[] w]; by simpl in *.
Qed.

Lemma pingWorker_trace env host d :
  extendsBy (fun tr => storeLockFree tr = true) (hdWorld d) (hdWorld (pingWorker env host d)).
Proof.
  unfold pingWorker, pingHost. destruct (ping env host); simpl.
  - exists [EvExec "ping" ["-c"; "1"; "-W"; "2"; host]; EvLock LocalMu; EvUnlock LocalMu].
    split; [|done]. unfold markLive, emit. simpl. by rewrite <- (assoc_L (++)).
  - by apply extendsBy_emit.
Qed.

Lemma portWorker_trace env host d :
  extendsBy (fun tr => storeLockFree tr = true) (hdWorld d) (hdWorld (portWorker env host d)).
Proof.
  unfold portWorker.
  pose proof (portDiscovery_trace env host discoveryPorts (hdWorld d)) as H.
  destruct (portDiscovery env host discoveryPorts (hdWorld d)) as [[] w]; simpl in *; [|done].
  eapply extendsBy_trans; [apply storeLockFree_closed | exact H |].
  by apply extendsBy_emit.
Qed.

Lemma fold_results {T St : Type} (world : St -> World) (work : T -> St -> St) l s0 :
  (forall x s, Results (world (work x s)) = Results (world s)) ->
  Results (world (fold_left (fun s x => work x s) l s0)) = Results (world s0).
Proof.
  intros Hwork. revert s0. induction l as [|x l IH]; intros s0; simpl; [done|].
  by rewrite IH, Hwork.
Qed.

(** In every state an interleaving of a pool can reach, the store is the
    initial one if no [work] call touches it. *)
Lemma steps_results {T St : Type} (world : St -> World) (work : T -> St -> St)
    n items s0 q :
  (forall x s, Results (world (work x s)) = Results (world s)) ->
  WorkerPool.steps work (WorkerPool.init n items s0) q ->
  Results (world (WorkerPool.shared q)) = Results (world s0).
Proof.
  intros Hwork Hsteps.
  destruct (steps_inv work items s0 _ _ Hsteps (init_inv work n items s0)) as (_ & _ & ->).
  by apply fold_results.
Qed.

Lemma discoverFrom_results env cfg allHosts w :
  Results (hdWorld (discoverFrom env cfg allHosts w)) = Results w.
Proof.
  unfold discoverFrom, phase1, phase2.
  assert (Results (hdWorld (WorkerPool.shared (WorkerPool.runPool (pingWorker env)
            (sched env) (WorkerPool.goroutines (Threads cfg)) allHosts (mkDiscovery ∅ w))))
          = Results w) as H1.
  { exact (steps_results hdWorld (pingWorker env) _ allHosts (mkDiscovery ∅ w) _
             (pingWorker_results env) (runPool_reachable _ _ _ _ _)). }
  destruct (0 <? _); [|done]. rewrite <- H1.
  exact (steps_results hdWorld (portWorker env) _ _ _ _
           (portWorker_results env) (runPool_reachable _ _ _ _ _)).
Qed.

Lemma discoverFrom_trace env cfg allHosts w :
  extendsBy (fun tr => storeLockFree tr = true) w (hdWorld (discoverFrom env cfg allHosts w)).
Proof.
  unfold discoverFrom, phase1, phase2.
  pose proof (runPool_extendsBy _ storeLockFree_closed hdWorld (pingWorker env) (sched env)
    (WorkerPool.goroutines (Threads cfg)) allHosts (mkDiscovery ∅ w)
    (fun x s => pingWorker_trace env x s)) as H1. simpl in H1.
  destruct (0 <? _); [|done].
  eapply extendsBy_trans; [apply storeLockFree_closed | exact H1 |].
  apply (runPool_extendsBy _ storeLockFree_closed hdWorld (portWorker env)).
  intros x s. apply portWorker_trace.
Qed.

(** C8, as amended. Neither phase of host discovery writes to the result
    store: in every state reachable by the goroutines of either phase the
    store is the one HostDiscovery was entered with, and the trace of the
    two phases has no operation on the store's lock. The live hosts are
    collected in the local map and appended to the store in one batch,
    inside a single critical section that ends the trace. *)
Theorem discovery_commits_in_one_batch (env : Env) (cfg : PDive2) (w : World) :
  (forall allHosts n q,
     WorkerPool.steps (pingWorker env)
       (WorkerPool.init n allHosts (mkDiscovery ∅ w)) q ->
     Results (hdWorld (WorkerPool.shared q)) = Results w)
  /\ (forall nonPingHosts n d q,
        WorkerPool.steps (portWorker env) (WorkerPool.init n nonPingHosts d) q ->
        Results (hdWorld (WorkerPool.shared q)) = Results (hdWorld d))
  /\ (forall allHosts,
        Results (hdWorld (discoverFrom env cfg allHosts w)) = Results w)
  /\ (forall fuel allHosts, expandTargets env fuel cfg = Some allHosts ->
        exists live w' tr,
          HostDiscovery env fuel cfg w = Some (live, w')
          /\ live = keysOf (liveHosts (discoverFrom env cfg allHosts w))
          /\ Hosts (Results w') = Hosts (Results w) ++ (upHost <$> live)
          /\ trace w' = trace w ++ tr ++ [EvLock ResultsMutex; EvUnlock ResultsMutex]
          /\ storeLockFree tr = true).
Proof.
  split_and!.
  - intros allHosts n q.
    exact (steps_results hdWorld (pingWorker env) n allHosts (mkDiscovery ∅ w) q
             (pingWorker_results env)).
  - intros hosts n d q.
    exact (steps_results hdWorld (portWorker env) n hosts d q (portWorker_results env)).
  - intros allHosts. apply discoverFrom_results.
  - intros fuel allHosts Hexp.
    destruct (discoverFrom_trace env cfg allHosts w) as (tr & Htr & Hfree).
    eexists _, _, tr. unfold HostDiscovery. rewrite Hexp. split_and!; [done..| | |done].
    + unfold commitDiscovery. simpl. by rewrite discoverFrom_results.
    + unfold commitDiscovery. simpl. rewrite Htr. by rewrite <- !(assoc_L (++)).
Qed.

Lemma discovery_commits_in_one_batch_witness :
  expandTargets pingEnv 10 (config ["10.0.0.4"] 2) = Some ["10.0.0.4"]
  /\ exists live w' tr,
       HostDiscovery pingEnv 10 (config ["10.0.0.4"] 2) emptyWorld = Some (live, w')
       /\ live = keysOf (liveHosts (discoverFrom pingEnv (config ["10.0.0.4"] 2)
                                     ["10.0.0.4"] emptyWorld))
       /\ Hosts (Results w') = Hosts (Results emptyWorld) ++ (upHost <$> live)
       /\ trace w' = trace emptyWorld ++ tr ++ [EvLock ResultsMutex; EvUnlock ResultsMutex]
       /\ storeLockFree tr = true.
Proof.
  assert (expandTargets pingEnv 10 (config ["10.0.0.4"] 2) = Some ["10.0.0.4"]) as H
    by (vm_compute; reflexivity).
  split; [exact H|].
  exact (proj2 (proj2 (proj2
    (discovery_commits_in_one_batch pingEnv (config ["10.0.0.4"] 2) emptyWorld)))
    10%nat ["10.0.0.4"] H).
Defined.

(** C8 as stated fails: when both phases are over, the host that answered
    the ping is in the local map only; the store receives it afterwards. *)
Lemma discovery_store_empty_after_phases :
  let cfg := config ["10.0.0.4"] 2 in
  let d := discoverFrom pingEnv cfg ["10.0.0.4"] emptyWorld in
  seen (liveHosts d) "10.0.0.4" = true
  /\ Hosts (Results (hdWorld d)) = []
  /\ (Hosts ∘ Results ∘ snd <$> HostDiscovery pingEnv 10 cfg emptyWorld)
     = Some [upHost "10.0.0.4"].
Proof. vm_compute. done. Qed.

(** ** The lock of the result store *)

(** C9 fails for service identification: ServiceEnumeration takes the
    store's lock, and the HTTP request of enumerateService is made before
    the lock is released. *)
Lemma ServiceEnumeration_requests_under_lock :
  trace (ServiceEnumeration nginxEnv ["10.0.0.5"] webWorld)
  = [EvLock ResultsMutex; EvHTTPGet "http://10.0.0.5"; EvUnlock ResultsMutex]
  /\ lockDiscipline false (trace (ServiceEnumeration nginxEnv ["10.0.0.5"] webWorld)) = false
  /\ Hosts (Results (ServiceEnumeration nginxEnv ["10.0.0.5"] webWorld))
     = [mkHostInfo "10.0.0.5" "up" [mkPortInfo 80 "open" "http (nginx)"]].
Proof. vm_compute. done. Qed.

(** ** The fallback of the masscan adapter *)

Lemma len_pos_iff {A : Type} (l : list A) : (0 <? len l) = true <-> l <> [].
Proof. unfold len. destruct l; simpl; [|rewrite Z.ltb_lt]; split; (done || lia). Qed.

Lemma readBack_from_dom (hs : list HostInfo) (m : gmap string (list PortInfo)) host :
  is_Some (fold_left readBackStep hs m !! host)
  <-> is_Some (m !! host) \/ exists h, h ∈ hs /\ Host h = host /\ Ports h <> [].
Proof.
  revert m. induction hs as [|h hs IH]; intros m; simpl.
  - split; [by left | intros [?|(h & []%elem_of_nil & _)]; done].
  - rewrite IH. unfold readBackStep.
    destruct (0 <? len (Ports h)) eqn:Hlen.
    + apply len_pos_iff in Hlen. rewrite lookup_insert_is_Some'. split.
      * intros [[<-|Hm]|(h' & Hin & Hh)]; [right|by left|right].
        -- exists h. split_and!; [left|done..].
        -- exists h'. split; [by right|done].
      * intros [Hm|(h' & [->|Hin]%elem_of_cons & Hh)]; [left; by right| |].
        -- left. left. by destruct Hh.
        -- right. by exists h'.
    + assert (Ports h = []) as Hnil.
      { destruct (Ports h) eqn:E; [done|]. unfold len in Hlen. simpl in Hlen.
        apply Z.ltb_ge in Hlen. lia. }
      split.
      * intros [Hm|(h' & Hin & Hh)]; [by left|right]. exists h'. split; [by right|done].
      * intros [Hm|(h' & [->|Hin]%elem_of_cons & Hh)]; [by left| |].
        -- by destruct Hh as [_ []].
        -- right. by exists h'.
Qed.

(** The hosts of the mapping read back from the store are those that have
    a record with at least one port. *)
Lemma readBack_dom (hs : list HostInfo) host :
  is_Some (readBack hs !! host) <-> exists h, h ∈ hs /\ Host h = host /\ Ports h <> [].
Proof.
  unfold readBack. rewrite readBack_from_dom, lookup_empty. split; [|by right].
  by intros [[]%is_Some_None|].
Qed.

Lemma fallbackScan_readBack env cfg hosts w :
  (fallbackScan env cfg hosts w).1
  = readBack (Hosts (Results (fallbackScan env cfg hosts w).2)).
Proof. done. Qed.

(** C10. When masscan is not on the path, or its run fails, the mapping
    MasscanScan returns holds exactly the hosts that have a record with at
    least one port in the store left by the built-in scan; a host all of
    whose records are without ports is absent from it. *)
Theorem fallback_mapping (env : Env) (cfg : PDive2) (hosts : list string) (w : World)
    (host : string) :
  hosts <> [] ->
  lookPath env "masscan" = false
  \/ (lookPath env "masscan" = true /\ is_Some (createTemp env)
      /\ masscan env hosts = None) ->
  let results := (MasscanScan env cfg hosts w).1 in
  let store := Hosts (Results (MasscanScan env cfg hosts w).2) in
  (is_Some (results !! host)
   <-> exists h, h ∈ store /\ Host h = host /\ Ports h <> [])
  /\ ((forall h, h ∈ store -> Host h = host -> Ports h = []) ->
      results !! host = None).
Proof.
  intros Hne Hpath results store.
  assert (results = readBack store) as Hrb.
  { unfold results, store, MasscanScan.
    assert ((len hosts =? 0) = false) as ->.
    { apply Z.eqb_neq. unfold len. destruct hosts; [done|simpl; lia]. }
    destruct Hpath as [->|(-> & [f ->] & ->)]; simpl; [done|].
    done. }
  rewrite Hrb. split; [apply readBack_dom|].
  intros Hnone. apply eq_None_not_Some. rewrite readBack_dom.
  intros (h & Hin & Hh & Hp). by apply Hp, Hnone.
Qed.

Lemma fallback_mapping_witness :
  ["10.0.0.5"; "10.0.0.6"] <> []
  /\ lookPath sshEnv "masscan" = false
  /\ is_Some ((MasscanScan sshEnv (config [] 4) ["10.0.0.5"; "10.0.0.6"] twoHosts).1
              !! "10.0.0.5")
  /\ (MasscanScan sshEnv (config [] 4) ["10.0.0.5"; "10.0.0.6"] twoHosts).1 !! "10.0.0.6"
     = None.
Proof.
  assert (["10.0.0.5"; "10.0.0.6"] <> [] :> list string) as H1 by done.
  assert (lookPath sshEnv "masscan" = false) as H2 by (vm_compute; reflexivity).
  split_and!; [exact H1 | exact H2 | |].
  - apply (fallback_mapping sshEnv (config [] 4) _ twoHosts "10.0.0.5" H1 (or_introl H2)).
    exists (mkHostInfo "10.0.0.5" "up" [openPort 22]).
    vm_compute. split_and!; [left|done..].
  - apply (fallback_mapping sshEnv (config [] 4) _ twoHosts "10.0.0.6" H1 (or_introl H2)).
    vm_compute. intros h Hin Heq.
    apply elem_of_cons in Hin as [->|Hin]; [discriminate Heq|].
    apply elem_of_cons in Hin as [->|Hin]; [reflexivity|]. by apply elem_of_nil in Hin.
Defined.

(** ** Parsing the output of masscan *)














(** ** The built-in port scanner *)

Lemma List_filter_stdpp {A : Type} (f : A -> bool) (l : list A) :
  List.filter f l = filter (fun x => f x = true) l.
Proof.
  induction l as [|x l IH]; [done|]. simpl. rewrite filter_cons.
  destruct (f x); case_decide; try done; by rewrite IH.
Qed.


Lemma scanWorker_openPorts env host port s :
  openPorts (scanWorker env host port s)
  = openPorts s ++ (if dial env (hostPort host port) then [openPort port] else []).
Proof.
  unfold scanWorker, scanPort. destruct (dial env _); simpl; [done|].
  by rewrite app_nil_r.
Qed.

Lemma scanWorker_results env host port s :
  Results (psWorld (scanWorker env host port s)) = Results (psWorld s).
Proof. unfold scanWorker, scanPort. by destruct (dial env _). Qed.

Lemma scan_fold_openPorts env host l s0 :
  openPorts (fold_left (fun s port => scanWorker env host port s) l s0)
  = openPorts s0
    ++ (openPort <$> filter (fun port => dial env (hostPort host port) = true) l).
Proof.
  revert s0. induction l as [|port l IH]; intros s0; simpl.
  - by rewrite app_nil_r.
  - rewrite IH, scanWorker_openPorts, filter_cons, <- (assoc_L (++)). f_equal.
    destruct (dial env _); case_decide; done.
Qed.


Lemma portPool_results env cfg host ports w :
  Results (psWorld (WorkerPool.shared (portPool env cfg host ports w))) = Results w.
Proof.
  unfold portPool. rewrite runPool_shared.
  apply (fold_results psWorld (scanWorker env host)). apply scanWorker_results.
Qed.

Lemma findHostFrom_ge k host hs i : findHostFrom k host hs = Some i -> (k <= i)%nat.
Proof.
  revert k. induction hs as [|h hs IH]; intros k; simpl; [done|].
  destruct (String.eqb (Host h) host); [intros [= <-]; lia|].
  intros ?%IH. lia.
Qed.

(** The loop that replaces the ports writes to the first record of the host. *)
Lemma setPortsFirst_findHostFrom k host found hs i :
  findHostFrom k host hs = Some i ->
  exists h, hs !! (i - k)%nat = Some h /\ Host h = host
    /\ setPortsFirst host found hs = <[(i - k)%nat := mkHostInfo host (Status h) found]> hs
    /\ forall j h', (j < i - k)%nat -> hs !! j = Some h' -> Host h' <> host.
Proof.
  revert k. induction hs as [|h hs IH]; intros k; simpl; [done|].
  destruct (String.eqb_spec (Host h) host) as [Heq|Hne].
  - intros [= <-]. rewrite Nat.sub_diag. exists h. rewrite Heq. split_and!; try done.
    intros j h' Hj. lia.
  - intros Hfind. pose proof (findHostFrom_ge _ _ _ _ Hfind) as Hge.
    destruct (IH _ Hfind) as (h0 & Hlook & Hhost & Hset & Hfirst).
    replace (i - k)%nat with (S (i - S k)) by lia. exists h0. simpl.
    split_and!; try done; [by rewrite Hset|].
    intros [|j] h'; simpl; [by intros _ [= <-]|]. intros Hj. apply Hfirst. lia.
Qed.

Lemma setPortsFirst_absent host found hs :
  findHost host hs = None -> setPortsFirst host found hs = hs.
Proof.
  unfold findHost. generalize 0%nat.
  induction hs as [|h hs IH]; intros k; simpl; [done|].
  destruct (String.eqb (Host h) host); [done|]. intros ?%IH. by f_equal.
Qed.



(** ** removeDuplicates *)

Lemma seen_insert keys item x :
  seen (<[item := true]> keys) x = false <-> x <> item /\ seen keys x = false.
Proof.
  unfold seen. destruct (decide (item = x)) as [->|Hne].
  - rewrite lookup_insert_eq. simpl. split; [done|by intros [[] _]].
  - rewrite lookup_insert_ne by done. split; [by intros ->|by intros [_ ->]].
Qed.

Lemma removeDuplicatesFrom_firstSeen keys result slice :
  removeDuplicatesFrom keys result slice
  = result ++ filter (fun x => seen keys x = false) (firstSeen slice).
Proof.
  revert keys result. induction slice as [|item rest IH]; intros keys result; simpl.
  - by rewrite app_nil_r.
  - rewrite filter_cons, list_filter_filter.
    destruct (seen keys item) eqn:Hseen; simpl; try case_decide; try done.
    + rewrite IH. f_equal. apply list_filter_iff. intros x. split; [|by intros [? _]].
      intros Hx. split; [done|]. intros ->. congruence.
    + rewrite IH, <- (assoc_L (++)). simpl. do 2 f_equal.
      apply list_filter_iff. intros x. rewrite seen_insert. tauto.
Qed.

(** [removeDuplicates] keeps the first occurrence of every string, in order. *)
Lemma removeDuplicates_firstSeen slice : removeDuplicates slice = firstSeen slice.
Proof.
  unfold removeDuplicates. rewrite removeDuplicatesFrom_firstSeen. simpl.
  induction (firstSeen slice) as [|x l IH]; [done|].
  rewrite filter_cons. rewrite decide_True by done. by rewrite IH.
Qed.

Lemma elem_of_firstSeen l x : x ∈ firstSeen l <-> x ∈ l.
Proof.
  induction l as [|y l IH]; simpl; [done|].
  rewrite !elem_of_cons, list_elem_of_filter, IH.
  destruct (decide (x = y)) as [->|]; [by split; [left|left]|].
  split; [intros [?|[_ ?]]; [done|by right] | intros [?|?]; [done|by right]].
Qed.

Lemma NoDup_firstSeen l : NoDup (firstSeen l).
Proof.
  induction l as [|y l IH]; simpl; [constructor|].
  apply NoDup_cons. split; [|by apply NoDup_filter].
  rewrite list_elem_of_filter. by intros [[] _].
Qed.

Lemma filter_all {A : Type} (P : A -> Prop) `{forall x, Decision (P x)} (l : list A) :
  (forall x, x ∈ l -> P x) -> filter P l = l.
Proof.
  induction l as [|x l IH]; intros Hl; [done|]. rewrite filter_cons.
  rewrite decide_True by (apply Hl; left). f_equal. apply IH.
  intros y Hy. apply Hl. by right.
Qed.

Lemma firstSeen_NoDup_id l : NoDup l -> firstSeen l = l.
Proof.
  induction 1 as [|x l Hx Hl IH]; simpl; [done|]. rewrite IH. f_equal.
  apply filter_all. by intros y Hy ->.
Qed.

(** ** Host discovery *)


Lemma emit_emit a b w : emit b (emit a w) = emit (a ++ b) w.
Proof. unfold emit. simpl. by rewrite (assoc_L (++)). Qed.




Lemma probedPorts_none env host ports :
  respondsOnPort env host ports = false -> probedPorts env host ports = ports.
Proof.
  induction ports as [|port ports IH]; simpl; [done|].
  destruct (dial env (hostPort host port)); simpl; [done|]. intros ?%IH. by f_equal.
Qed.


Section LiveFold.
Variable work : string -> discovery -> discovery.
Variable test : string -> bool.
Hypothesis Hwork : forall h d,
  liveHosts (work h d)
  = if test h then <[h := true]> (liveHosts d) else liveHosts d.


End LiveFold.





Section Discovery.
Variables (env : Env) (cfg : PDive2) (allHosts : list string) (w : World).
Hypothesis Hthreads : 1 <= Threads cfg.

Let d1 := WorkerPool.shared (phase1 env cfg allHosts w).








End Discovery.




(** ** Well-formedness of the result store *)

Lemma setPortsFirst_hosts host found hs :
  Host <$> setPortsFirst host found hs = Host <$> hs.
Proof.
  induction hs as [|h hs IH]; [done|]. simpl.
  destruct (String.eqb (Host h) host); csimpl; [done|by rewrite IH].
Qed.

Lemma setPortsFirst_Forall (P : HostInfo -> Prop) host found hs :
  (forall h, P h -> P (mkHostInfo (Host h) (Status h) found)) ->
  Forall P hs -> Forall P (setPortsFirst host found hs).
Proof.
  intros Hnew. induction 1 as [|h hs Hh Hhs IH]; simpl; [constructor|].
  destruct (String.eqb (Host h) host); constructor; auto.
Qed.

Lemma scanHostPorts_hosts env cfg host ports w :
  Host <$> Hosts (Results (scanHostPorts env cfg host ports w))
  = Host <$> Hosts (Results w).
Proof.
  unfold scanHostPorts. simpl. by rewrite setPortsFirst_hosts, portPool_results.
Qed.

(** PortScan changes no host identifier of the store. *)
Lemma PortScan_hosts env cfg hosts w :
  Host <$> Hosts (Results (PortScan env cfg hosts w)) = Host <$> Hosts (Results w).
Proof.
  unfold PortScan, hostPool.
  apply (runPool_preserves _
           (fun w' => Host <$> Hosts (Results w') = Host <$> Hosts (Results w))); [done|].
  intros host w' _ <-. apply scanHostPorts_hosts.
Qed.

Lemma submseteq_NoDup {A : Type} (l k : list A) : l ⊆+ k -> NoDup k -> NoDup l.
Proof.
  intros [k' Hk]%submseteq_Permutation Hnd. rewrite Hk in Hnd.
  by apply NoDup_app in Hnd as [? _].
Qed.

Lemma portPool_ports_NoDup env cfg host ports w :
  NoDup ports ->
  NoDup (Port <$> openPorts (WorkerPool.shared (portPool env cfg host ports w))).
Proof.
  intros Hnd. unfold portPool. rewrite runPool_shared, scan_fold_openPorts. simpl.
  rewrite <- list_fmap_compose.
  assert (Port ∘ openPort = id) as -> by done. rewrite list_fmap_id.
  apply NoDup_filter. eapply submseteq_NoDup; [|exact Hnd].
  apply runPool_finished_sub.
Qed.

Lemma commonPorts_NoDup : NoDup commonPorts.
Proof. compute_done. Qed.

Lemma scanHostPorts_portsUnique env cfg host w :
  portsUnique (Results w) ->
  portsUnique (Results (scanHostPorts env cfg host commonPorts w)).
Proof.
  unfold portsUnique, scanHostPorts. simpl. rewrite portPool_results.
  apply setPortsFirst_Forall. intros h _. simpl.
  apply portPool_ports_NoDup, commonPorts_NoDup.
Qed.

Lemma PortScan_portsUnique env cfg hosts w :
  portsUnique (Results w) -> portsUnique (Results (PortScan env cfg hosts w)).
Proof.
  intros Hw. unfold PortScan, hostPool.
  apply (runPool_preserves _ (fun w' => portsUnique (Results w'))); [done|].
  intros host w' _. apply scanHostPorts_portsUnique.
Qed.

Lemma findHostFrom_None k host hs :
  findHostFrom k host hs = None <-> host ∉ Host <$> hs.
Proof.
  revert k. induction hs as [|h hs IH]; intros k; simpl.
  - split; [intros _ []%elem_of_nil|done].
  - rewrite not_elem_of_cons. destruct (String.eqb_spec (Host h) host) as [->|Hne].
    + split; [done|by intros [[] _]].
    + rewrite IH. split; [by intros ?; split; [congruence|]|by intros [_ ?]].
Qed.

Lemma alter_hosts (f : HostInfo -> HostInfo) (i : nat) (hs : list HostInfo) :
  (forall h, Host (f h) = Host h) -> Host <$> alter f i hs = Host <$> hs.
Proof.
  intros Hf. revert i. induction hs as [|h hs IH]; intros [|i]; csimpl; try done.
  - by rewrite Hf.
  - f_equal. apply IH.
Qed.

Lemma mergeHost_hostsUnique m hs host :
  NoDup (Host <$> hs) -> NoDup (Host <$> mergeHost m hs host).
Proof.
  intros Hnd. unfold mergeHost.
  destruct (findHost host hs) as [i|] eqn:Hfind.
  - destruct (m !! host); [|done]. by rewrite alter_hosts.
  - assert (NoDup (Host <$> hs ++ [upHost host])) as Hnd'.
    { rewrite fmap_app. simpl. apply NoDup_app. split_and!; [done| |apply NoDup_singleton].
      intros x Hx ->%list_elem_of_singleton. by apply findHostFrom_None in Hfind. }
    destruct (m !! host); [|done]. by rewrite alter_hosts.
Qed.

Lemma mergeResults_hostsUnique m hosts hs :
  NoDup (Host <$> hs) -> NoDup (Host <$> mergeResults m hosts hs).
Proof.
  unfold mergeResults. revert hs. induction hosts as [|host hosts IH]; intros hs Hnd; simpl;
    [done|]. by apply IH, mergeHost_hostsUnique.
Qed.

Lemma fallbackScan_hosts env cfg hosts w :
  Host <$> Hosts (Results (fallbackScan env cfg hosts w).2) = Host <$> Hosts (Results w).
Proof. unfold fallbackScan. simpl. apply PortScan_hosts. Qed.

Lemma MasscanScan_hostsUnique env cfg hosts w :
  hostsUnique (Results w) -> hostsUnique (Results (MasscanScan env cfg hosts w).2).
Proof.
  unfold hostsUnique, MasscanScan. intros Hw.
  destruct (len hosts =? 0); [done|].
  destruct (lookPath env "masscan"); simpl; [|by rewrite PortScan_hosts].
  destruct (createTemp env) as [f|]; [|done].
  destruct (masscan env hosts) as [output|]; simpl.
  - by apply mergeResults_hostsUnique.
  - by rewrite PortScan_hosts.
Qed.

Lemma passiveLoop_results env targets found w :
  Results (passiveLoop env targets found w).2 = Results w.
Proof.
  revert found w. induction targets as [|target targets IH]; intros found w; simpl; [done|].
  destruct (String.eqb (extractDomain env target) ""); [apply IH|].
  destruct (amassDiscovery env (extractDomain env target) w) as [hosts w'] eqn:Ha.
  rewrite IH. unfold amassDiscovery in Ha.
  destruct (negb (lookPath env "amass")); [by injection Ha as _ <-|].
  destruct (amass env _); by injection Ha as _ <-.
Qed.

Lemma PassiveDiscovery_hosts env cfg w :
  Hosts (Results (PassiveDiscovery env cfg w).2)
  = Hosts (Results w) ++ (discoveredHost <$> (PassiveDiscovery env cfg w).1).
Proof.
  unfold PassiveDiscovery.
  pose proof (passiveLoop_results env (Targets cfg) [] w) as Hr.
  destruct (passiveLoop env (Targets cfg) [] w) as [found w']. simpl in *. by rewrite Hr.
Qed.

Lemma mergeHost_appends (m : gmap string (list PortInfo)) (hs : list HostInfo) host
    (i : nat) h ports :
  findHost host hs = Some i -> hs !! i = Some h -> m !! host = Some ports ->
  mergeHost m hs host = <[i := mkHostInfo (Host h) (Status h) (Ports h ++ ports)]> hs.
Proof.
  intros Hfind Hlook Hports. unfold mergeHost. rewrite Hfind, Hports.
  clear Hfind. revert i Hlook.
  induction hs as [|h' hs IH]; intros [|i] Hlook; simplify_eq/=; [done|].
  f_equal. by apply IH.
Qed.

(** C1, as amended. Uniqueness of the host identifiers of the store is
    kept by PortScan and by MasscanScan (whose merge looks a host up
    before it appends a record); uniqueness of the port numbers within
    every host record is kept by PortScan, PassiveDiscovery and
    HostDiscovery. The merge of MasscanScan appends the ports parsed for a
    host to the ports its record already holds, without removing repeated
    port numbers. *)
Theorem store_uniqueness_kept (env : Env) (cfg : PDive2) (hosts : list string) (w : World) :
  (hostsUnique (Results w) -> hostsUnique (Results (PortScan env cfg hosts w)))
  /\ (hostsUnique (Results w) -> hostsUnique (Results (MasscanScan env cfg hosts w).2))
  /\ (portsUnique (Results w) -> portsUnique (Results (PortScan env cfg hosts w)))
  /\ (portsUnique (Results w) -> portsUnique (Results (PassiveDiscovery env cfg w).2))
  /\ (portsUnique (Results w) ->
      forall fuel live w', HostDiscovery env fuel cfg w = Some (live, w') ->
                           portsUnique (Results w'))
  /\ (forall m hs host i h ports,
        findHost host hs = Some i -> hs !! i = Some h -> m !! host = Some ports ->
        mergeHost m hs host
        = <[i := mkHostInfo (Host h) (Status h) (Ports h ++ ports)]> hs).
Proof.
  split_and!.
  - unfold hostsUnique. by rewrite PortScan_hosts.
  - apply MasscanScan_hostsUnique.
  - apply PortScan_portsUnique.
  - unfold portsUnique. rewrite PassiveDiscovery_hosts. intros Hw.
    apply Forall_app. split; [done|]. apply Forall_fmap, Forall_forall.
    intros ? _. constructor.
  - unfold portsUnique, HostDiscovery. intros Hw fuel live w'.
    destruct (expandTargets env fuel cfg) as [allHosts|]; [|done].
    intros [= <- <-]. unfold commitDiscovery. simpl. rewrite discoverFrom_results.
    apply Forall_app. split; [done|]. apply Forall_fmap, Forall_forall.
    intros ? _. constructor.
  - apply mergeHost_appends.
Qed.

Lemma store_uniqueness_kept_witness :
  hostsUnique (Results oneHost)
  /\ hostsUnique (Results (MasscanScan rescanEnv (config [] 4) ["10.0.0.5"; "10.0.0.6"]
                             oneHost).2).
Proof.
  assert (hostsUnique (Results oneHost)) as H by (apply NoDup_singleton).
  split; [exact H|].
  exact (proj1 (proj2 (store_uniqueness_kept rescanEnv (config [] 4)
                         ["10.0.0.5"; "10.0.0.6"] oneHost)) H).
Defined.

(** C1 as stated fails on both counts. Passive discovery followed by host
    discovery, the order of the active mode, stores a host that amass
    reports and that answers the ping twice; and the merge of MasscanScan
    after PortScan stores a port found by both twice. *)
Lemma store_uniqueness_broken :
  (Host <$> Hosts (Results (PassiveDiscovery amassEnv (config ["example.com"] 4)
                              emptyWorld).2)
   = ["example.com"; "www.example.com"]
   /\ (fmap Host ∘ Hosts ∘ Results ∘ snd
       <$> HostDiscovery amassEnv 10 (config ["example.com"] 4)
             (PassiveDiscovery amassEnv (config ["example.com"] 4) emptyWorld).2)
      = Some ["example.com"; "www.example.com"; "example.com"]
   /\ ~ NoDup ["example.com"; "www.example.com"; "example.com"])
  /\ (Hosts (Results (PortScan rescanEnv (config [] 4) ["10.0.0.5"] oneHost))
      = [mkHostInfo "10.0.0.5" "up" [openPort 80]]
      /\ Hosts (Results (MasscanScan rescanEnv (config [] 4) ["10.0.0.5"]
                           (PortScan rescanEnv (config [] 4) ["10.0.0.5"] oneHost)).2)
         = [mkHostInfo "10.0.0.5" "up" [openPort 80; openPort 80]]
      /\ ~ NoDup (Port <$> [openPort 80; openPort 80])).
Proof.
  split_and!; try (vm_compute; reflexivity).
  - intros Hnd. apply NoDup_cons in Hnd as [Hnotin _]. apply Hnotin.
    right. left.
  - intros Hnd. apply NoDup_cons in Hnd as [Hnotin _]. apply Hnotin. left.
Qed.

(** ** Target expansion *)

Lemma incFrom_length j ip : length (incFrom j ip) = length ip.
Proof.
  revert ip. induction j as [|j IH]; intros ip; [done|]. cbn [incFrom].
  destruct (ip !! j) as [b|]; [|done]. cbv zeta.
  destruct (0 <? (b + 1) mod 256); [|rewrite IH]; apply length_insert.
Qed.

Lemma inc_length ip : length (inc ip) = length ip.
Proof. apply incFrom_length. Qed.

(** Every 4-byte address is inside the prefix of length 0. *)
Lemma everything_Contains ip : length ip = 4%nat -> net.Contains everything ip = true.
Proof.
  intros Hlen. destruct ip as [|a [|b [|c [|d [|]]]]]; try done.
  unfold net.Contains. simpl. unfold net.bytesEqb. apply bool_decide_eq_true.
  by rewrite !Z.land_0_r.
Qed.

Lemma cidrLoop_everything env fuel ip allHosts :
  length ip = 4%nat -> cidrLoop env fuel everything ip allHosts = None.
Proof.
  revert ip allHosts. induction fuel as [|fuel IH]; intros ip allHosts Hlen; simpl; [done|].
  rewrite everything_Contains by done. apply IH. by rewrite inc_length.
Qed.

(** C4 fails for the prefix length 0: after 255.255.255.255 the address
    wraps to 0.0.0.0, which is still inside the block, so the walk of
    "0.0.0.0/0" never ends and no list of 2^32 addresses is returned,
    whatever number of steps it is given. *)
Theorem expandTargets_slash0_diverges (fuel : nat) :
  ParseCIDR quietEnv "0.0.0.0/0"
  = Some ([0; 0; 0; 0; 0; 0; 0; 0; 0; 0; 255; 255; 0; 0; 0; 0], everything)
  /\ expandTargets quietEnv fuel (config ["0.0.0.0/0"] 50) = None.
Proof.
  split; [vm_compute; reflexivity|].
  unfold expandTargets. simpl.
  change (net.ParseCIDR4 "0.0.0.0/0")
    with (Some ([0; 0; 0; 0; 0; 0; 0; 0; 0; 0; 255; 255; 0; 0; 0; 0], everything)).
  change (net.Mask _ (net.NetMask everything)) with [0; 0; 0; 0].
  by rewrite cidrLoop_everything.
Qed.

(** ** Addresses as numbers *)

Lemma len_cons {A : Type} (x : A) (l : list A) : len (x :: l) = 1 + len l.
Proof. unfold len. simpl length. lia. Qed.

Lemma len_nonneg {A : Type} (l : list A) : 0 <= len l.
Proof. unfold len. lia. Qed.

Lemma val_bound ip : Forall isByte ip -> 0 <= val ip < 256 ^ len ip.
Proof.
  induction 1 as [|x ip Hx Hip IH]; simpl.
  - unfold len. simpl. lia.
  - rewrite len_cons. pose proof (len_nonneg ip).
    rewrite Z.pow_add_r by lia. unfold isByte in Hx. nia.
Qed.

Lemma val4 a b c d : val [a; b; c; d] = a * 16777216 + b * 65536 + c * 256 + d.
Proof. unfold val, len. simpl. lia. Qed.

Lemma bytesOf_val a b c d :
  isByte a -> isByte b -> isByte c -> isByte d ->
  bytesOf (val [a; b; c; d]) = [a; b; c; d].
Proof.
  unfold isByte. intros Ha Hb Hc Hd. rewrite val4. unfold bytesOf.
  set (n := a * 16777216 + b * 65536 + c * 256 + d).
  assert (n / 16777216 = a) as -> by (subst n; Z.to_euclidean_division_equations; lia).
  assert ((n / 65536) mod 256 = b) as ->
    by (subst n; Z.to_euclidean_division_equations; lia).
  assert ((n / 256) mod 256 = c) as ->
    by (subst n; Z.to_euclidean_division_equations; lia).
  assert (n mod 256 = d) as -> by (subst n; Z.to_euclidean_division_equations; lia).
  done.
Qed.

Lemma bytesOf_valid n : 0 <= n < 2 ^ 32 -> Forall isByte (bytesOf n).
Proof.
  intros Hn. unfold bytesOf, isByte. change (2 ^ 32) with 4294967296 in Hn.
  repeat constructor; Z.to_euclidean_division_equations; lia.
Qed.

Lemma val_bytesOf n : 0 <= n < 2 ^ 32 -> val (bytesOf n) = n.
Proof.
  intros Hn. unfold bytesOf. rewrite val4. change (2 ^ 32) with 4294967296 in Hn.
  Z.to_euclidean_division_equations. lia.
Qed.

(** Two valid 4-byte addresses with the same number are the same. *)
Lemma val_inj4 ip ip' :
  length ip = 4%nat -> length ip' = 4%nat -> Forall isByte ip -> Forall isByte ip' ->
  val ip = val ip' -> ip = ip'.
Proof.
  intros Hl Hl' Hv Hv' Heq.
  destruct ip as [|a [|b [|c [|d [|]]]]]; try done.
  destruct ip' as [|a' [|b' [|c' [|d' [|]]]]]; try done.
  repeat match goal with H : Forall _ (_ :: _) |- _ => apply Forall_cons in H as [? H] end.
  rewrite <- (bytesOf_val a b c d), <- (bytesOf_val a' b' c' d') by done.
  by rewrite Heq.
Qed.

(** ** [inc] adds one, modulo 2^32 *)

Lemma inc4 a b c d :
  isByte a -> isByte b -> isByte c -> isByte d ->
  inc [a; b; c; d]
  = if d <? 255 then [a; b; c; d + 1]
    else if c <? 255 then [a; b; c + 1; 0]
    else if b <? 255 then [a; b + 1; 0; 0]
    else if a <? 255 then [a + 1; 0; 0; 0]
    else [0; 0; 0; 0].
Proof.
  unfold isByte. intros Ha Hb Hc Hd. unfold inc. cbn [length incFrom lookup list_lookup].
  cbv zeta. cbn [insert list_insert].
  destruct (Z.ltb_spec d 255).
  { rewrite (Z.mod_small (d + 1)) by lia. by rewrite (proj2 (Z.ltb_lt 0 (d + 1))) by lia. }
  replace d with 255 by lia. change ((255 + 1) mod 256) with 0. change (0 <? 0) with false.
  cbv iota. cbn [lookup list_lookup insert list_insert].
  destruct (Z.ltb_spec c 255).
  { rewrite (Z.mod_small (c + 1)) by lia. by rewrite (proj2 (Z.ltb_lt 0 (c + 1))) by lia. }
  replace c with 255 by lia. change ((255 + 1) mod 256) with 0. change (0 <? 0) with false.
  cbv iota. cbn [lookup list_lookup insert list_insert].
  destruct (Z.ltb_spec b 255).
  { rewrite (Z.mod_small (b + 1)) by lia. by rewrite (proj2 (Z.ltb_lt 0 (b + 1))) by lia. }
  replace b with 255 by lia. change ((255 + 1) mod 256) with 0. change (0 <? 0) with false.
  cbv iota. cbn [lookup list_lookup insert list_insert].
  destruct (Z.ltb_spec a 255).
  { rewrite (Z.mod_small (a + 1)) by lia. by rewrite (proj2 (Z.ltb_lt 0 (a + 1))) by lia. }
  replace a with 255 by lia. done.
Qed.

(** On a valid IPv4 address [inc] is the successor modulo 2^32: the
    address after 255.255.255.255 is 0.0.0.0. *)
Lemma inc_val ip :
  length ip = 4%nat -> Forall isByte ip ->
  length (inc ip) = 4%nat /\ Forall isByte (inc ip)
  /\ val (inc ip) = (val ip + 1) mod 2 ^ 32.
Proof.
  intros Hl Hv. destruct ip as [|a [|b [|c [|d [|]]]]]; try done.
  repeat match goal with H : Forall _ (_ :: _) |- _ => apply Forall_cons in H as [? H] end.
  rewrite inc4 by done. unfold isByte in *.
  change (2 ^ 32) with 4294967296.
  destruct (Z.ltb_spec d 255); [|destruct (Z.ltb_spec c 255);
    [|destruct (Z.ltb_spec b 255); [|destruct (Z.ltb_spec a 255)]]].
  all: split; [done|]; split; [repeat constructor; unfold isByte; lia|].
  all: rewrite !val4.
  1-4: rewrite Z.mod_small; lia.
  replace a with 255 by lia. replace b with 255 by lia.
  replace c with 255 by lia. replace d with 255 by lia. done.
Qed.

Lemma inc_val_witness :
  length [10; 0; 255; 255] = 4%nat
  /\ Forall isByte [10; 0; 255; 255]
  /\ val (inc [10; 0; 255; 255]) = (val [10; 0; 255; 255] + 1) mod 2 ^ 32.
Proof.
  assert (Forall isByte [10; 0; 255; 255]) as H
    by (repeat (constructor; [unfold isByte; lia|]); constructor).
  split_and!; [reflexivity | exact H |].
  exact (proj2 (proj2 (inc_val [10; 0; 255; 255] eq_refl H))).
Defined.

(** ** Masking keeps the network part *)

Lemma land_byte_mask x k :
  isByte x -> 0 <= k <= 8 -> Z.land x (256 - 2 ^ k) = x - x mod 2 ^ k.
Proof.
  intros Hx Hk. assert (byteMaskTable = true) as Htab by (vm_compute; reflexivity).
  unfold byteMaskTable in Htab. rewrite forallb_forall in Htab.
  assert (x ∈ seqZ 0 256) as Hxin by (apply elem_of_seqZ; unfold isByte in Hx; lia).
  apply list_elem_of_In, Htab in Hxin. rewrite forallb_forall in Hxin.
  assert (k ∈ seqZ 0 9) as Hkin by (apply elem_of_seqZ; lia).
  apply list_elem_of_In, Hxin in Hkin. by apply Z.eqb_eq.
Qed.

Lemma length_maskBytes n ones : length (net.maskBytes n ones) = n.
Proof. revert ones. induction n as [|n IH]; intros ones; simpl; [done|]. by rewrite IH. Qed.

Lemma andBytes_cons x xs n ones :
  isByte x ->
  net.andBytes (x :: xs) (net.maskBytes (S n) ones)
  = (x - x mod 2 ^ clearedBits ones) :: net.andBytes xs (net.maskBytes n (ones - 8)).
Proof.
  intros Hx. unfold net.andBytes. cbn [net.maskBytes zip_with]. f_equal.
  rewrite <- (land_byte_mask x (clearedBits ones)) by (done || unfold clearedBits; lia).
  f_equal. unfold clearedBits.
  destruct (Z.leb_spec 8 ones); [by rewrite Z.max_l by lia|].
  destruct (Z.leb_spec ones 0); [by rewrite Z.max_r, Z.min_l by lia|].
  by rewrite Z.max_r, Z.min_r by lia.
Qed.

Lemma masked_byte_bound x k : isByte x -> 0 <= k -> isByte (x - x mod 2 ^ k).
Proof.
  unfold isByte. intros Hx Hk.
  pose proof (Z.mod_pos_bound x (2 ^ k) ltac:(lia)).
  assert (x mod 2 ^ k <= x) by (apply Z.mod_le; lia). lia.
Qed.

Lemma andBytes_valid xs n ones :
  length xs = n -> Forall isByte xs ->
  length (net.andBytes xs (net.maskBytes n ones)) = n
  /\ Forall isByte (net.andBytes xs (net.maskBytes n ones)).
Proof.
  intros Hl Hxs. split.
  { unfold net.andBytes. rewrite length_zip_with, length_maskBytes. lia. }
  subst n. revert ones. induction Hxs as [|x xs Hx Hxs IH]; intros ones; [constructor|].
  cbn [length]. rewrite andBytes_cons by done.
  constructor; [|by apply IH]. apply masked_byte_bound; [done|]. unfold clearedBits. lia.
Qed.

Lemma val_masked_zero n ones xs :
  length xs = n -> Forall isByte xs -> ones <= 0 ->
  val (net.andBytes xs (net.maskBytes n ones)) = 0.
Proof.
  intros <- Hxs. revert ones. induction Hxs as [|x xs Hx Hxs IH]; intros ones Hones; [done|].
  cbn [length]. rewrite andBytes_cons by done. cbn [val].
  rewrite IH by lia.
  assert (clearedBits ones = 8) as -> by (unfold clearedBits; lia).
  unfold isByte in Hx. change (2 ^ 8) with 256. rewrite Z.mod_small by lia. lia.
Qed.

(** Masking with the mask of [ones] leading 1-bits clears the remaining
    low bits of the number and keeps the rest. *)
Lemma val_masked n ones xs :
  length xs = n -> Forall isByte xs -> 0 <= ones <= 8 * Z.of_nat n ->
  val (net.andBytes xs (net.maskBytes n ones))
  = val xs - val xs mod 2 ^ (8 * Z.of_nat n - ones).
Proof.
  intros <- Hxs. revert ones. induction Hxs as [|x xs Hx Hxs IH]; intros ones Hones.
  { simpl. by rewrite Zmod_0_l. }
  cbn [length]. rewrite andBytes_cons by done.
  pose proof (andBytes_valid xs (length xs) (ones - 8) eq_refl Hxs) as [Hlen _].
  cbn [val]. unfold len. rewrite Hlen.
  pose proof (val_bound xs Hxs) as Hv. unfold len in Hv.
  cbn [length] in Hones. rewrite Nat2Z.inj_succ in Hones |- *.
  pose proof (Nat2Z.is_nonneg (length xs)) as Hn0.
  generalize dependent (Z.of_nat (length xs)). intros n IH Hones Hv Hn0.
  replace (8 * Z.succ n - ones) with (8 * n + 8 - ones) by lia.
  assert (256 ^ n = 2 ^ (8 * n)) as HB.
  { change 256 with (2 ^ 8). rewrite <- Z.pow_mul_r by lia. done. }
  destruct (decide (8 <= ones)) as [Hge|Hlt].
  - assert (clearedBits ones = 0) as -> by (unfold clearedBits; lia).
    change (2 ^ 0) with 1. rewrite Z.mod_1_r, Z.sub_0_r.
    rewrite IH by lia.
    replace (8 * n - (ones - 8)) with (8 * n + 8 - ones) by lia.
    set (h := 8 * n + 8 - ones).
    assert (256 ^ n = 2 ^ (8 * n - h) * 2 ^ h) as ->.
    { rewrite <- Z.pow_add_r by lia. rewrite HB. f_equal. lia. }
    assert ((x * (2 ^ (8 * n - h) * 2 ^ h) + val xs) mod 2 ^ h = val xs mod 2 ^ h) as ->;
      [|lia].
    rewrite Z.add_comm, Z.mul_assoc. apply Z.mod_add, Z.pow_nonzero; lia.
  - rewrite val_masked_zero by (done || lia).
    assert (clearedBits ones = 8 - ones) as -> by (unfold clearedBits; lia).
    replace (8 * n + 8 - ones) with (8 * n + (8 - ones)) by lia.
    rewrite Z.pow_add_r by lia. rewrite <- HB.
    assert (0 < 256 ^ n) as HBpos by (apply Z.pow_pos_nonneg; lia).
    assert (0 < 2 ^ (8 - ones)) as Hcpos by (apply Z.pow_pos_nonneg; lia).
    assert ((x * 256 ^ n + val xs) mod (256 ^ n * 2 ^ (8 - ones))
            = val xs + 256 ^ n * (x mod 2 ^ (8 - ones))) as ->; [|lia].
    rewrite Z.rem_mul_r by lia.
    rewrite (Z.add_comm (x * _)), Z.mod_add, Z.div_add by lia.
    by rewrite (Z.mod_small (val xs)), (Z.div_small (val xs)) by lia.
Qed.

(** ** Membership in an IPv4 block *)

Lemma To4_4 ip : length ip = 4%nat -> net.To4 ip = Some ip.
Proof. intros Hl. unfold net.To4. by rewrite Hl. Qed.

Lemma CIDRMask_32 p : 0 <= p <= 32 -> net.CIDRMask p 32 = net.maskBytes 4 p.
Proof.
  intros Hp. unfold net.CIDRMask. simpl.
  by rewrite (proj2 (Z.leb_le 0 p)), (proj2 (Z.leb_le p 32)) by lia.
Qed.

Lemma Mask_v4 a b c d m :
  length m = 4%nat ->
  net.Mask (net.v4InV6Prefix ++ [a; b; c; d]) m = net.andBytes [a; b; c; d] m.
Proof.
  intros Hm. unfold net.Mask. rewrite Hm. simpl. rewrite Hm. by simpl.
Qed.

Lemma networkNumber_aligned ip0 p :
  0 <= p <= 32 -> networkNumber ip0 p mod 2 ^ (32 - p) = 0.
Proof.
  intros Hp. unfold networkNumber.
  assert (0 < 2 ^ (32 - p)) by (apply Z.pow_pos_nonneg; lia).
  rewrite Zminus_mod, Z.mod_mod, Z.sub_diag by lia. by apply Z.mod_0_l; lia.
Qed.

Lemma Contains_blockOf ip0 p x :
  length ip0 = 4%nat -> Forall isByte ip0 -> 0 <= p <= 32 ->
  length x = 4%nat -> Forall isByte x ->
  net.Contains (blockOf ip0 p) x = true
  <-> val x - val x mod 2 ^ (32 - p) = networkNumber ip0 p.
Proof.
  intros Hl0 Hv0 Hp Hlx Hvx.
  pose proof (andBytes_valid ip0 4 p Hl0 Hv0) as [HlN HvN].
  pose proof (andBytes_valid x 4 p Hlx Hvx) as [HlX HvX].
  pose proof (andBytes_valid _ 4 p HlN HvN) as [HlNN HvNN].
  assert (net.Contains (blockOf ip0 p) x
          = net.bytesEqb
              (net.andBytes (net.andBytes ip0 (net.maskBytes 4 p)) (net.maskBytes 4 p))
              (net.andBytes x (net.maskBytes 4 p))) as ->.
  { unfold net.Contains, net.networkNumberAndMask, blockOf. cbn [net.NetIP net.NetMask].
    pose proof (length_maskBytes 4 p) as Hlm.
    generalize dependent (net.maskBytes 4 p). intros m HlN _ _ _ _ _ Hlm.
    rewrite (To4_4 _ HlN), (To4_4 _ Hlx), Hlm, HlN, Hlx. simpl. by rewrite HlN. }
  unfold net.bytesEqb. rewrite bool_decide_eq_true.
  assert (val (net.andBytes (net.andBytes ip0 (net.maskBytes 4 p)) (net.maskBytes 4 p))
          = networkNumber ip0 p) as HNN.
  { rewrite val_masked by (done || lia). rewrite val_masked by (done || lia).
    change (8 * Z.of_nat 4) with 32. fold (networkNumber ip0 p).
    rewrite networkNumber_aligned by done. lia. }
  assert (val (net.andBytes x (net.maskBytes 4 p)) = val x - val x mod 2 ^ (32 - p)) as HX.
  { by rewrite val_masked by (done || lia). }
  split.
  - intros Heq. by rewrite <- HX, <- Heq.
  - intros Heq. apply val_inj4; try done. by rewrite HNN, HX.
Qed.

(** The addresses of a block are the 2^(32-p) numbers from its network
    number on. *)
Lemma Contains_range ip0 p x :
  length ip0 = 4%nat -> Forall isByte ip0 -> 0 <= p <= 32 ->
  length x = 4%nat -> Forall isByte x ->
  net.Contains (blockOf ip0 p) x = true
  <-> networkNumber ip0 p <= val x < networkNumber ip0 p + 2 ^ (32 - p).
Proof.
  intros Hl0 Hv0 Hp Hlx Hvx. rewrite Contains_blockOf by done.
  pose proof (networkNumber_aligned ip0 p Hp) as Hal.
  assert (0 < 2 ^ (32 - p)) as Hpos by (apply Z.pow_pos_nonneg; lia).
  pose proof (Z.mod_pos_bound (val x) _ Hpos) as Hm.
  split.
  - intros <-. lia.
  - intros Hr. generalize dependent (networkNumber ip0 p). intros N HN Hr.
    apply Z.mod_divide in HN as [q ->]; [|lia].
    assert (val x mod 2 ^ (32 - p) = val x - q * 2 ^ (32 - p)); [|lia].
    symmetry. apply Z.mod_unique_pos with q; lia.
Qed.

(** ** Dotted-decimal text *)

Lemma append_assoc (a b c : string) : (a +:+ b) +:+ c = a +:+ (b +:+ c).
Proof.
  induction a as [|x a IH]; [done|].
  change (String x a +:+ b) with (String x (a +:+ b)).
  change (String x (a +:+ b) +:+ c) with (String x ((a +:+ b) +:+ c)).
  by rewrite IH.
Qed.

Lemma splitFrom_app w sep s t :
  noSep sep s = true ->
  strings.splitFrom w sep (s +:+ t) = strings.splitFrom (w +:+ s) sep t.
Proof.
  revert w. induction s as [|c s IH]; intros w Hs.
  - by rewrite append_empty_r.
  - simpl in Hs. apply andb_true_iff in Hs as [Hc Hs]. apply negb_true_iff in Hc.
    change (String c s +:+ t) with (String c (s +:+ t)). simpl. rewrite Hc.
    rewrite IH by done. f_equal. by rewrite append_assoc.
Qed.

Lemma octet_text b :
  isByte b ->
  noSep "." (strconv.Itoa b) = true /\ net.parseOctet (strconv.Itoa b) = Some b.
Proof.
  intros Hb. assert (octetTable = true) as Htab by (vm_compute; reflexivity).
  unfold octetTable in Htab. rewrite forallb_forall in Htab.
  assert (b ∈ seqZ 0 256) as Hin by (apply elem_of_seqZ; unfold isByte in Hb; lia).
  apply list_elem_of_In, Htab, andb_true_iff in Hin as [H1 H2].
  by apply bool_decide_eq_true in H2.
Qed.

(** Reading back the dotted text of an address gives the address. *)
Lemma ParseIP4_dotted a b c d :
  isByte a -> isByte b -> isByte c -> isByte d ->
  net.ParseIP4 (net.dotted [a; b; c; d]) = Some (net.v4InV6Prefix ++ [a; b; c; d]).
Proof.
  intros [Ha Ha']%octet_text [Hb Hb']%octet_text [Hc Hc']%octet_text [Hd Hd']%octet_text.
  unfold net.ParseIP4, net.dotted, strings.Split. cbn [fmap list_fmap strings.Join].
  change ("." +:+ ?s) with (String "." s).
  rewrite (splitFrom_app _ _ _ _ Ha). cbn [strings.splitFrom].
  change (Ascii.eqb "." ".") with true. cbv iota.
  change ("." +:+ ?s) with (String "." s).
  rewrite (splitFrom_app _ _ _ _ Hb). cbn [strings.splitFrom].
  change (Ascii.eqb "." ".") with true. cbv iota.
  change ("." +:+ ?s) with (String "." s).
  rewrite (splitFrom_app _ _ _ _ Hc). cbn [strings.splitFrom].
  change (Ascii.eqb "." ".") with true. cbv iota.
  rewrite <- (append_empty_r (strconv.Itoa d)) at 1.
  rewrite (splitFrom_app _ _ _ _ Hd). cbn [strings.splitFrom].
  change ("" +:+ ?s) with s. cbn [fmap list_fmap].
  by rewrite Ha', Hb', Hc', Hd'.
Qed.

Lemma dotted_bytesOf_inj x y :
  0 <= x < 2 ^ 32 -> 0 <= y < 2 ^ 32 ->
  net.dotted (bytesOf x) = net.dotted (bytesOf y) -> x = y.
Proof.
  intros Hx Hy Heq.
  pose proof (bytesOf_valid x Hx) as Hvx. pose proof (bytesOf_valid y Hy) as Hvy.
  assert (bytesOf x = bytesOf y) as Hb.
  { apply (f_equal net.ParseIP4) in Heq. unfold bytesOf in *.
    repeat match goal with H : Forall _ (_ :: _) |- _ => apply Forall_cons in H as [? H] end.
    rewrite !ParseIP4_dotted in Heq by done.
    injection Heq as E1 E2 E3 E4. by rewrite E1, E2, E3, E4. }
  by rewrite <- (val_bytesOf x), <- (val_bytesOf y), Hb.
Qed.

(** ** The CIDR walk of expandTargets *)

Lemma IPString_v4 env n :
  0 <= n < 2 ^ 32 -> IPString env (bytesOf n) = net.dotted (bytesOf n).
Proof. done. Qed.

Lemma inc_bytesOf n :
  0 <= n < 2 ^ 32 -> inc (bytesOf n) = bytesOf ((n + 1) mod 2 ^ 32).
Proof.
  intros Hn. pose proof (bytesOf_valid n Hn) as Hv.
  destruct (inc_val (bytesOf n) eq_refl Hv) as (Hl & Hv' & Hval).
  assert (0 <= (n + 1) mod 2 ^ 32 < 2 ^ 32) as Hn' by (apply Z.mod_pos_bound; lia).
  apply val_inj4; [done..|by apply bytesOf_valid|].
  by rewrite Hval, !val_bytesOf.
Qed.

Section Walk.
Variables (env : Env) (ip0 : net.IP) (p : Z).
Hypothesis Hlen : length ip0 = 4%nat.
Hypothesis Hvalid : Forall isByte ip0.
Hypothesis Hp : 1 <= p <= 32.

Let N := networkNumber ip0 p.
Let size := 2 ^ (32 - p).

Lemma block_bounds :
  0 <= N /\ N + size <= 2 ^ 32 /\ 0 < size /\ (N + size = 2 ^ 32 -> 0 < N).
Proof.
  pose proof (val_bound ip0 Hvalid) as Hv. unfold len in Hv. rewrite Hlen in Hv.
  change (256 ^ Z.of_nat 4) with (2 ^ 32) in Hv.
  assert (0 < size) as Hs by (apply Z.pow_pos_nonneg; lia).
  pose proof (Z.mod_pos_bound (val ip0) size Hs) as Hm.
  assert (val ip0 mod size <= val ip0) by (apply Z.mod_le; lia).
  assert (N mod size = 0) as Hal by (apply networkNumber_aligned; lia).
  assert (2 ^ 32 = 2 ^ p * size) as Hfull.
  { unfold size. rewrite <- Z.pow_add_r by lia. f_equal. lia. }
  assert (N = val ip0 - val ip0 mod size) as HN by done.
  apply Z.mod_divide in Hal as [q Hq]; [|lia].
  assert (size < 2 ^ 32).
  { unfold size. apply Z.pow_lt_mono_r; lia. }
  assert (q < 2 ^ p) by nia.
  split_and!; [lia|nia|lia|lia].
Qed.

Lemma cidrLoop_walk fuel n allHosts :
  N <= n <= N + size -> (Z.to_nat (N + size - n) < fuel)%nat ->
  cidrLoop env fuel (blockOf ip0 p) (bytesOf (n mod 2 ^ 32)) allHosts
  = Some (allHosts ++ (net.dotted ∘ bytesOf <$> seqZ n (N + size - n))).
Proof.
  destruct block_bounds as (HN0 & Hup & Hsize & Hwrap).
  revert n allHosts. induction fuel as [|fuel IH]; intros n allHosts Hn Hfuel; [lia|].
  cbn [cidrLoop].
  assert (0 <= n mod 2 ^ 32 < 2 ^ 32) as Hm by (apply Z.mod_pos_bound; lia).
  pose proof (Contains_range ip0 p (bytesOf (n mod 2 ^ 32)) Hlen Hvalid ltac:(lia) eq_refl
                (bytesOf_valid _ Hm)) as Hc.
  rewrite val_bytesOf in Hc by done. fold N size in Hc.
  destruct (decide (n = N + size)) as [->|Hne].
  - assert (net.Contains (blockOf ip0 p) (bytesOf ((N + size) mod 2 ^ 32)) = false) as ->.
    { apply not_true_is_false. rewrite Hc.
      destruct (decide (N + size = 2 ^ 32)) as [Heq|Hlt].
      - rewrite Heq, Z.mod_same by lia. specialize (Hwrap Heq). lia.
      - rewrite Z.mod_small by lia. lia. }
    rewrite Z.sub_diag. by rewrite app_nil_r.
  - assert (n < 2 ^ 32) by lia. rewrite Z.mod_small in Hc |- * by lia.
    rewrite (proj2 Hc) by lia. rewrite inc_bytesOf by lia.
    rewrite IH by lia. rewrite <- (assoc_L (++)). do 2 f_equal.
    rewrite (seqZ_cons n) by lia. cbn [fmap list_fmap]. simpl.
    replace (Z.succ n) with (n + 1) by lia.
    replace (Z.pred (N + size - n)) with (N + size - (n + 1)) by lia. done.
Qed.
End Walk.

(** For a valid IPv4 CIDR target of prefix length 1 to 32, whatever host
    bits the address has, expandTargets returns once given more than
    2^(32-p) steps, with exactly the 2^(32-p) addresses of the block in
    dotted-decimal text, network and broadcast addresses included, in
    ascending order and without repetition. *)
Theorem expandTargets_cidr_block (env : Env) (cfg : PDive2) (target : string)
    (a b c d p : Z) (fuel : nat) :
  isByte a -> isByte b -> isByte c -> isByte d -> 1 <= p <= 32 ->
  Targets cfg = [target] ->
  strings.Contains target "/" = true ->
  ParseCIDR env target
  = Some (net.v4InV6Prefix ++ [a; b; c; d],
          net.mkIPNet (net.Mask (net.v4InV6Prefix ++ [a; b; c; d]) (net.CIDRMask p 32))
                      (net.CIDRMask p 32)) ->
  2 ^ (32 - p) < Z.of_nat fuel ->
  let block := net.dotted ∘ bytesOf <$> seqZ (networkNumber [a; b; c; d] p) (2 ^ (32 - p)) in
  expandTargets env fuel cfg = Some block
  /\ len block = 2 ^ (32 - p)
  /\ NoDup block.
Proof.
  intros Ha Hb Hc Hd Hp Htargets Hslash Hparse Hfuel block.
  assert (Forall isByte [a; b; c; d]) as Hvalid by (repeat (constructor; [done|]); constructor).
  destruct (block_bounds [a; b; c; d] p eq_refl Hvalid Hp) as (HN0 & Hup & Hsize & _).
  set (N := networkNumber [a; b; c; d] p) in *.
  assert (NoDup block) as Hnd.
  { apply NoDup_fmap_2_strong; [|apply NoDup_seqZ].
    intros x y Hx%elem_of_seqZ Hy%elem_of_seqZ. apply dotted_bytesOf_inj; lia. }
  split_and!; [|unfold block, len; rewrite length_fmap, length_seqZ; lia|done].
  unfold expandTargets. rewrite Htargets. cbn [expandLoop]. rewrite Hslash, Hparse.
  cbn [net.NetMask]. rewrite CIDRMask_32 by lia.
  rewrite Mask_v4 by apply length_maskBytes. fold (blockOf [a; b; c; d] p).
  destruct (andBytes_valid [a; b; c; d] 4 p eq_refl Hvalid) as [Hl Hv].
  assert (net.andBytes [a; b; c; d] (net.maskBytes 4 p) = bytesOf (N mod 2 ^ 32)) as ->.
  { assert (0 <= N mod 2 ^ 32 < 2 ^ 32) as Hm by (apply Z.mod_pos_bound; lia).
    apply val_inj4; [done..|by apply bytesOf_valid|].
    rewrite val_bytesOf by done. rewrite val_masked by (done || lia).
    rewrite (Z.mod_small N) by lia. done. }
  rewrite (cidrLoop_walk env [a; b; c; d] p eq_refl Hvalid Hp) by (fold N; lia).
  fold N. replace (N + 2 ^ (32 - p) - N) with (2 ^ (32 - p)) by lia. simpl.
  fold block. by rewrite removeDuplicates_firstSeen, firstSeen_NoDup_id.
Qed.

Lemma expandTargets_cidr_block_witness :
  expandTargets quietEnv 5 (config ["10.0.0.5/30"] 50)
  = Some (net.dotted ∘ bytesOf <$> seqZ (networkNumber [10; 0; 0; 5] 30) (2 ^ (32 - 30)))
  /\ (net.dotted ∘ bytesOf <$> seqZ (networkNumber [10; 0; 0; 5] 30) (2 ^ (32 - 30)))
     = ["10.0.0.4"; "10.0.0.5"; "10.0.0.6"; "10.0.0.7"].
Proof.
  split; [|vm_compute; reflexivity].
  apply (expandTargets_cidr_block quietEnv (config ["10.0.0.5/30"] 50) "10.0.0.5/30"
           10 0 0 5 30 5); unfold isByte; try lia; try (vm_compute; reflexivity).
Defined.

(** ** More on target expansion *)

(** removeDuplicates returns each string of its argument once, at the
    place of its first occurrence, and changes nothing when applied again. *)
Theorem removeDuplicates_spec (slice : list string) :
  NoDup (removeDuplicates slice)
  /\ (forall x, x ∈ removeDuplicates slice <-> x ∈ slice)
  /\ removeDuplicates slice = firstSeen slice
  /\ removeDuplicates slice `sublist_of` slice
  /\ removeDuplicates (removeDuplicates slice) = removeDuplicates slice.
Proof.
  rewrite !removeDuplicates_firstSeen. split_and!.
  - apply NoDup_firstSeen.
  - apply elem_of_firstSeen.
  - done.
  - induction slice as [|x l IH]; simpl; [done|].
    apply sublist_skip. etrans; [apply sublist_filter|done].
  - apply firstSeen_NoDup_id, NoDup_firstSeen.
Qed.

Lemma expandLoop_plain env fuel targets allHosts :
  (forall t, t ∈ targets -> strings.Contains t "/" = true -> ParseCIDR env t = None) ->
  expandLoop env fuel targets allHosts
  = Some (allHosts ++ filter (fun t => strings.Contains t "/" = false) targets).
Proof.
  revert allHosts. induction targets as [|t targets IH]; intros allHosts Hbad; simpl.
  - by rewrite app_nil_r.
  - rewrite filter_cons. destruct (strings.Contains t "/") eqn:Hs.
    + rewrite (Hbad t) by (done || left). rewrite decide_False by done.
      apply IH. intros t' Ht'. apply Hbad. by right.
    + rewrite decide_True by done. rewrite IH by (intros t' Ht'; apply Hbad; by right).
      by rewrite <- (assoc_L (++)).
Qed.

(** Targets without a slash are passed on unchanged, and targets with a
    slash that ParseCIDR rejects are dropped without an error; when the
    list holds no other target, expandTargets needs no fuel at all. *)
Theorem expandTargets_plain (env : Env) (cfg : PDive2) (fuel : nat) :
  (forall t, t ∈ Targets cfg -> strings.Contains t "/" = true -> ParseCIDR env t = None) ->
  expandTargets env fuel cfg
  = Some (removeDuplicates
            (filter (fun t => strings.Contains t "/" = false) (Targets cfg))).
Proof. intros Hbad. unfold expandTargets. by rewrite expandLoop_plain. Qed.

Lemma expandTargets_plain_witness :
  expandTargets quietEnv 0 (config ["b.example"; "10.0.0.1"; "300.0.0.0/8"; "b.example"] 50)
  = Some ["b.example"; "10.0.0.1"].
Proof.
  rewrite expandTargets_plain; [vm_compute; reflexivity|].
  intros t Ht _. simpl in Ht.
  repeat (apply elem_of_cons in Ht as [->|Ht]; [vm_compute; reflexivity|]).
  by apply elem_of_nil in Ht.
Defined.

(** ** Lock discipline of the scanning phases *)

Lemma lockDiscipline_app held a b :
  lockDiscipline held (a ++ b)
  = lockDiscipline held a && lockDiscipline (endsHeld held a) b.
Proof.
  revert held. induction a as [|e a IH]; intros held; simpl; [done|].
  destruct e as [[]|[]| | | | | | | | |]; simpl; rewrite ?IH; try done;
    by rewrite <- ?andb_assoc.
Qed.

Lemma endsHeld_app held a b : endsHeld held (a ++ b) = endsHeld (endsHeld held a) b.
Proof.
  revert held. induction a as [|e a IH]; intros held; simpl; [done|].
  destruct e as [[]|[]| | | | | | | | |]; by rewrite ?IH.
Qed.

Lemma disciplined_closed : segmentClosed disciplined.
Proof.
  split; [done|]. intros a b [Ha Ha'] [Hb Hb']. unfold disciplined.
  by rewrite lockDiscipline_app, endsHeld_app, Ha, Ha', Hb, Hb'.
Qed.

Lemma storeLockFree_disciplined tr : storeLockFree tr = true -> disciplined tr.
Proof.
  unfold disciplined. induction tr as [|e tr IH]; simpl; [done|].
  intros [He Htr]%andb_true_iff. destruct (IH Htr) as [IH1 IH2].
  destruct e as [[]|[]| | | | | | | | |]; try done; simpl; by rewrite ?IH1, ?IH2.
Qed.

Lemma extendsBy_weaken (P Q : list Event -> Prop) w w' :
  (forall tr, P tr -> Q tr) -> extendsBy P w w' -> extendsBy Q w w'.
Proof. intros HPQ (tr & Htr & HP). exists tr. auto. Qed.

Lemma extendsBy_disciplined w w' :
  extendsBy disciplined w w' ->
  lockDiscipline false (trace w) = true -> endsHeld false (trace w) = false ->
  lockDiscipline false (trace w') = true /\ endsHeld false (trace w') = false.
Proof.
  intros (tr & -> & Htr1 & Htr2) Hw1 Hw2.
  by rewrite lockDiscipline_app, endsHeld_app, Hw1, Hw2, Htr1, Htr2.
Qed.

Lemma scanWorker_trace env host port s :
  extendsBy disciplined (psWorld s) (psWorld (scanWorker env host port s)).
Proof.
  unfold scanWorker, scanPort. destruct (dial env _); simpl.
  - exists [EvDial (hostPort host port); EvLock LocalMu; EvUnlock LocalMu].
    split; [|done]. unfold emit. simpl. by rewrite <- (assoc_L (++)).
  - by apply extendsBy_emit.
Qed.

Lemma scanHostPorts_trace env cfg host ports w :
  extendsBy disciplined w (scanHostPorts env cfg host ports w).
Proof.
  unfold scanHostPorts, portPool.
  pose proof (runPool_extendsBy _ disciplined_closed psWorld (scanWorker env host)
    (sched env) (WorkerPool.goroutines (min (Threads cfg) 50)) ports (mkPortScan [] w)
    (fun x s => scanWorker_trace env host x s)) as (tr & Htr & Hd). simpl in Htr.
  exists (tr ++ [EvLock ResultsMutex; EvUnlock ResultsMutex]). split.
  - unfold emit, update. simpl. rewrite Htr. by rewrite <- !(assoc_L (++)).
  - by apply disciplined_closed.
Qed.

Lemma PortScan_trace env cfg hosts w : extendsBy disciplined w (PortScan env cfg hosts w).
Proof.
  unfold PortScan, hostPool.
  apply (runPool_extendsBy _ disciplined_closed (fun w => w)).
  intros host w'. apply scanHostPorts_trace.
Qed.

Lemma fallbackScan_trace env cfg hosts w :
  extendsBy disciplined w (fallbackScan env cfg hosts w).2.
Proof.
  unfold fallbackScan. simpl.
  destruct (PortScan_trace env cfg hosts w) as (tr & Htr & Hd).
  exists (tr ++ [EvRLock; EvRUnlock]). split.
  - unfold emit. simpl. rewrite Htr. by rewrite <- !(assoc_L (++)).
  - by apply disciplined_closed.
Qed.

Lemma MasscanScan_trace env cfg hosts w :
  extendsBy disciplined w (MasscanScan env cfg hosts w).2.
Proof.
  unfold MasscanScan. destruct (len hosts =? 0).
  { apply extendsBy_refl, disciplined_closed. }
  destruct (lookPath env "masscan"); cbn [negb].
  - destruct (createTemp env) as [f|]; [|simpl; rewrite emit_emit; by apply extendsBy_emit].
    destruct (masscan env hosts) as [output|].
    + simpl.
      exists [EvLookPath "masscan"; EvCreateTemp; EvWriteTemp hosts;
              EvExec "masscan" (masscanArgs f); EvLock ResultsMutex;
              EvUnlock ResultsMutex; EvRemoveTemp].
      split; [|done]. unfold emit, update. simpl. by rewrite <- !(assoc_L (++)).
    + change (extendsBy disciplined w
               (emit [EvRemoveTemp]
                  (fallbackScan env cfg hosts
                     (emit [EvWriteTemp hosts; EvExec "masscan" (masscanArgs f)]
                        (emit [EvCreateTemp] (emit [EvLookPath "masscan"] w)))).2)).
      eapply extendsBy_trans; [apply disciplined_closed| |by apply extendsBy_emit].
      eapply extendsBy_trans; [apply disciplined_closed| |apply fallbackScan_trace].
      rewrite !emit_emit. by apply extendsBy_emit.
  - eapply extendsBy_trans; [apply disciplined_closed| |apply fallbackScan_trace].
    by apply extendsBy_emit.
Qed.

Lemma passiveLoop_trace env targets found w :
  extendsBy disciplined w (passiveLoop env targets found w).2.
Proof.
  revert found w. induction targets as [|target targets IH]; intros found w; simpl.
  { apply extendsBy_refl, disciplined_closed. }
  destruct (String.eqb (extractDomain env target) ""); [apply IH|].
  destruct (amassDiscovery env (extractDomain env target) w) as [hosts w'] eqn:Ha.
  eapply extendsBy_trans; [apply disciplined_closed| |apply IH].
  unfold amassDiscovery in Ha. destruct (negb (lookPath env "amass")).
  - injection Ha as _ <-. by apply extendsBy_emit.
  - destruct (amass env _); injection Ha as _ <-; rewrite emit_emit;
      by apply extendsBy_emit.
Qed.

Lemma PassiveDiscovery_trace env cfg w :
  extendsBy disciplined w (PassiveDiscovery env cfg w).2.
Proof.
  unfold PassiveDiscovery.
  pose proof (passiveLoop_trace env (Targets cfg) [] w) as (tr & Htr & Hd).
  destruct (passiveLoop env (Targets cfg) [] w) as [found w']. simpl in *.
  exists (tr ++ [EvLock ResultsMutex; EvUnlock ResultsMutex]). split.
  - unfold emit, update. simpl. rewrite Htr. by rewrite <- !(assoc_L (++)).
  - by apply disciplined_closed.
Qed.

Lemma HostDiscovery_trace env fuel cfg w live w' :
  HostDiscovery env fuel cfg w = Some (live, w') -> extendsBy disciplined w w'.
Proof.
  unfold HostDiscovery. destruct (expandTargets env fuel cfg) as [allHosts|]; [|done].
  intros [= <- <-].
  destruct (discoverFrom_trace env cfg allHosts w) as (tr & Htr & Hfree).
  exists (tr ++ [EvLock ResultsMutex; EvUnlock ResultsMutex]). split.
  - unfold commitDiscovery. simpl. rewrite Htr. by rewrite <- !(assoc_L (++)).
  - apply disciplined_closed; [by apply storeLockFree_disciplined|done].
Qed.

(** Host discovery, passive discovery, the built-in port scan and the
    masscan adapter never ping, dial or run a program while they hold the
    lock of the result store, and they leave it released: started on a
    trace with that property, each ends on one. *)
Theorem phases_keep_lock_discipline (env : Env) (fuel : nat) (cfg : PDive2)
    (hosts : list string) (w : World) :
  lockDiscipline false (trace w) = true -> endsHeld false (trace w) = false ->
  (forall w', w' = PortScan env cfg hosts w
              \/ w' = (PassiveDiscovery env cfg w).2
              \/ w' = (MasscanScan env cfg hosts w).2
              \/ (exists live, HostDiscovery env fuel cfg w = Some (live, w')) ->
     lockDiscipline false (trace w') = true /\ endsHeld false (trace w') = false).
Proof.
  intros Hw1 Hw2 w' Hop. apply (extendsBy_disciplined w); [|done..].
  destruct Hop as [->|[->|[->|[live Hd]]]].
  - apply PortScan_trace.
  - apply PassiveDiscovery_trace.
  - apply MasscanScan_trace.
  - by eapply HostDiscovery_trace.
Qed.

Lemma phases_keep_lock_discipline_witness :
  lockDiscipline false (trace twoHosts) = true
  /\ endsHeld false (trace twoHosts) = false
  /\ lockDiscipline false
       (trace (MasscanScan sshEnv (config [] 4) ["10.0.0.5"; "10.0.0.6"] twoHosts).2) = true.
Proof.
  assert (lockDiscipline false (trace twoHosts) = true) as H1 by (vm_compute; reflexivity).
  assert (endsHeld false (trace twoHosts) = false) as H2 by (vm_compute; reflexivity).
  split_and!; [exact H1 | exact H2 |].
  exact (proj1 (phases_keep_lock_discipline sshEnv 0 (config [] 4)
                  ["10.0.0.5"; "10.0.0.6"] twoHosts H1 H2 _
                  (or_intror (or_intror (or_introl eq_refl))))).
Defined.

(** ** Service identification on the store *)

Lemma enumerateService_label env host port w :
  (enumerateService env host port serviceMap w).1 = serviceLabel env host port
  /\ Results (enumerateService env host port serviceMap w).2 = Results w.
Proof.
  unfold serviceLabel, enumerateService. destruct (serviceMap !! port) as [service|]; [|done].
  destruct (isHTTPFamily service); [|done].
  destruct (httpGet env _) as [server|]; [|done]. by destruct (negb _).
Qed.

Lemma enumeratePorts_spec env host ports w :
  (enumeratePorts env host ports w).1 = relabel env host <$> ports
  /\ Results (enumeratePorts env host ports w).2 = Results w.
Proof.
  revert w. induction ports as [|pi ports IH]; intros w; [done|]. cbn [enumeratePorts].
  pose proof (enumerateService_label env host (Port pi) w) as [Hl Hr].
  destruct (enumerateService env host (Port pi) serviceMap w) as [service w1].
  destruct (IH w1) as [IH1 IH2].
  destruct (enumeratePorts env host ports w1) as [rest w2]. simpl in *.
  split; [|congruence]. unfold relabel at 1. by rewrite Hl, IH1.
Qed.

Lemma findHost_lookup host (hs : list HostInfo) (i : nat) :
  findHost host hs = Some i -> exists h, hs !! i = Some h /\ Host h = host.
Proof.
  intros Hf. destruct (setPortsFirst_findHostFrom 0 host [] hs i Hf) as (h & Hl & Hh & _).
  rewrite Nat.sub_0_r in Hl. eauto.
Qed.

(** One host of ServiceEnumeration: the ports of its first record are
    relabelled; without a record nothing changes. *)
Lemma serviceHost_spec env host w :
  Results (serviceHost env host w)
  = match findHost host (Hosts (Results w)) with
    | Some i =>
        setHosts (alter (fun h => mkHostInfo (Host h) (Status h)
                                    (relabel env host <$> Ports h))
                    i (Hosts (Results w))) (Results w)
    | None => Results w
    end.
Proof.
  unfold serviceHost. simpl.
  destruct (findHost host (Hosts (Results w))) as [i|] eqn:Hf; [|done].
  destruct (findHost_lookup _ _ _ Hf) as (h & Hl & Hh). rewrite Hl.
  pose proof (enumeratePorts_spec env host (Ports h) (emit [EvLock ResultsMutex] w)) as [Hp Hr].
  destruct (enumeratePorts env host (Ports h) _) as [ports' w']. simpl in *.
  rewrite Hr, Hp. unfold setHosts. simpl. f_equal.
  clear -Hl. revert i Hl. induction (Hosts (Results w)) as [|h0 hs IH]; intros [|i] Hl;
    simplify_eq/=; [done|]. f_equal. by apply IH.
Qed.

Lemma relabel_ports env host (ports : list PortInfo) :
  Port <$> (relabel env host <$> ports) = Port <$> ports
  /\ State <$> (relabel env host <$> ports) = State <$> ports.
Proof. by rewrite <- !list_fmap_compose. Qed.

Lemma serviceHost_samePorts env host w :
  Forall2 samePorts (Hosts (Results w)) (Hosts (Results (serviceHost env host w)))
  /\ UnresponsiveHosts (Results (serviceHost env host w)) = UnresponsiveHosts (Results w).
Proof.
  rewrite serviceHost_spec. destruct (findHost host _) as [i|]; simpl.
  - split; [|done]. generalize (Hosts (Results w)). intros hs. revert i.
    induction hs as [|h hs IH]; intros [|i]; simpl; constructor;
      try (by unfold samePorts); try apply IH.
    + unfold samePorts. simpl. by destruct (relabel_ports env host (Ports h)).
    + apply Forall2_same_length_lookup. split; [done|]. intros j x y Hx Hy.
      assert (x = y) as -> by congruence. by unfold samePorts.
  - split; [|done]. apply Forall2_same_length_lookup. split; [done|].
    intros j x y Hx Hy. assert (x = y) as -> by congruence. by unfold samePorts.
Qed.

Lemma samePorts_trans h1 h2 h3 : samePorts h1 h2 -> samePorts h2 h3 -> samePorts h1 h3.
Proof. unfold samePorts. intros (?&?&?&?) (?&?&?&?). split_and!; congruence. Qed.

Lemma Forall2_samePorts_trans l1 l2 l3 :
  Forall2 samePorts l1 l2 -> Forall2 samePorts l2 l3 -> Forall2 samePorts l1 l3.
Proof.
  intros H12. revert l3. induction H12 as [|h1 h2 l1 l2 Hh H12 IH]; intros l3 H23.
  - by inversion H23.
  - inversion H23 as [|? h3 ? l3' Hh' H23']; subst. constructor; [|by apply IH].
    by eapply samePorts_trans.
Qed.

Lemma Forall2_samePorts_hosts l1 l2 : Forall2 samePorts l1 l2 -> Host <$> l2 = Host <$> l1.
Proof. induction 1 as [|h1 h2 l1 l2 (Hh&_) _ IH]; [done|]. csimpl. by rewrite Hh, IH. Qed.

Lemma findHostFrom_hosts k host l1 l2 :
  Host <$> l2 = Host <$> l1 -> findHostFrom k host l2 = findHostFrom k host l1.
Proof.
  revert k l2. induction l1 as [|h1 l1 IH]; intros k [|h2 l2] Heq; try done.
  injection Heq as Hh Ht. simpl. rewrite Hh.
  destruct (String.eqb (Host h1) host); [done|]. by apply IH.
Qed.

(** ServiceEnumeration changes service labels only: the hosts, their
    statuses, port numbers and states and the unresponsive count stay as
    they were; and it labels every port of the first record of each host
    it is given with the label enumerateService computes for that host. *)
Theorem ServiceEnumeration_relabels (env : Env) (hosts : list string) (w : World) :
  let w' := ServiceEnumeration env hosts w in
  Forall2 samePorts (Hosts (Results w)) (Hosts (Results w'))
  /\ UnresponsiveHosts (Results w') = UnresponsiveHosts (Results w)
  /\ (forall host i, host ∈ hosts -> findHost host (Hosts (Results w)) = Some i ->
        exists h', Hosts (Results w') !! i = Some h' /\ labelled env host h').
Proof.
  unfold ServiceEnumeration. revert w. induction hosts as [|host0 hosts IH]; intros w; simpl.
  - split_and!; [|done|by intros ? ? ?%elem_of_nil].
    apply Forall2_same_length_lookup. split; [done|]. intros j x y Hx Hy.
    assert (x = y) as -> by congruence. by unfold samePorts.
  - destruct (IH (serviceHost env host0 w)) as (Hsame & Hun & Hlab).
    destruct (serviceHost_samePorts env host0 w) as [Hsame0 Hun0].
    split_and!; [by eapply Forall2_samePorts_trans|congruence|].
    intros host i Hin Hfind.
    assert (findHost host (Hosts (Results (serviceHost env host0 w))) = Some i) as Hfind'.
    { unfold findHost. rewrite (findHostFrom_hosts _ _ (Hosts (Results w))); [done|].
      by apply Forall2_samePorts_hosts. }
    destruct (decide (host ∈ hosts)) as [Hin'|Hnotin]; [by apply Hlab|].
    apply elem_of_cons in Hin as [->|]; [|done]. clear Hlab.
    (* host0 is labelled now and no later host touches its record *)
    assert (exists h1, Hosts (Results (serviceHost env host0 w)) !! i = Some h1
                       /\ Host h1 = host0 /\ labelled env host0 h1) as (h1 & Hl1 & Hh1 & Hlab1).
    { rewrite serviceHost_spec, Hfind. simpl.
      destruct (findHost_lookup _ _ _ Hfind) as (h & Hl & Hh).
      eexists. rewrite list_lookup_alter_eq, Hl. simpl. split_and!; [done..|].
      unfold labelled. simpl. apply Forall_fmap, Forall_forall. by intros pi _. }
    clear Hsame Hun Hsame0 Hun0 Hfind Hfind' IH.
    revert Hl1. generalize (serviceHost env host0 w). clear w.
    induction hosts as [|host1 hosts IHh]; intros w Hl1; simpl; [by eauto|].
    apply not_elem_of_cons in Hnotin as [Hne Hnotin].
    apply IHh; [done|]. rewrite serviceHost_spec.
    destruct (findHost host1 (Hosts (Results w))) as [j|] eqn:Hj; [|done]. simpl.
    destruct (findHost_lookup _ _ _ Hj) as (hj & Hlj & Hhj).
    rewrite list_lookup_alter_ne; [done|]. intros <-. congruence.
Qed.

(** ** The merge of the masscan adapter *)

Lemma findHost_Some_lt host (hs : list HostInfo) (i : nat) :
  findHost host hs = Some i -> (i < length hs)%nat.
Proof. intros (h & Hl & _)%findHost_lookup. by eapply lookup_lt_Some. Qed.

(** What one iteration of the merge loop does to the records it finds. *)
Lemma mergeHost_keeps (m : gmap string (list PortInfo)) (hs : list HostInfo) host :
  (forall (i : nat) h, hs !! i = Some h ->
     exists h', mergeHost m hs host !! i = Some h'
       /\ Host h' = Host h /\ Status h' = Status h /\ Ports h `prefix_of` Ports h')
  /\ host ∈ Host <$> mergeHost m hs host
  /\ (forall (i : nat) h', (length hs <= i)%nat -> mergeHost m hs host !! i = Some h' ->
        Host h' = host /\ Status h' = "up").
Proof.
  unfold mergeHost. destruct (findHost host hs) as [j|] eqn:Hfind.
  - pose proof (findHost_Some_lt _ _ _ Hfind) as Hlt.
    destruct (findHost_lookup _ _ _ Hfind) as (hj & Hlj & Hhj).
    destruct (m !! host) as [ports|].
    + split_and!.
      * intros i h Hl. destruct (decide (i = j)) as [->|Hne].
        -- rewrite list_lookup_alter_eq, Hl. simpl. eexists. split_and!; [done..|].
           by apply prefix_app_r.
        -- rewrite list_lookup_alter_ne by done. by eauto.
      * rewrite alter_hosts by done. rewrite <- Hhj.
        apply list_elem_of_fmap. exists hj. split; [done|]. by eapply list_elem_of_lookup_2.
      * intros i h' Hi Hl. apply lookup_lt_Some in Hl. rewrite length_alter in Hl. lia.
    + split_and!; [by eauto| |].
      * rewrite <- Hhj. apply list_elem_of_fmap. exists hj. split; [done|].
        by eapply list_elem_of_lookup_2.
      * intros i h' Hi Hl. apply lookup_lt_Some in Hl. lia.
  - assert (forall h (i : nat), (hs ++ [upHost host]) !! i = Some h ->
              (length hs <= i)%nat -> i = length hs /\ h = upHost host) as Hnew.
    { intros h i Hl Hi. rewrite lookup_app_r in Hl by done.
      destruct (i - length hs)%nat as [|k] eqn:Hk; simpl in Hl; [|done].
      split; [lia|congruence]. }
    destruct (m !! host) as [ports|].
    + split_and!.
      * intros i h Hl. pose proof (lookup_lt_Some _ _ _ Hl) as Hlt.
        rewrite list_lookup_alter_ne by lia. rewrite lookup_app_l by done. by eauto.
      * rewrite alter_hosts by done. rewrite fmap_app. apply elem_of_app. right.
        by apply list_elem_of_singleton.
      * intros i h' Hi Hl. destruct (decide (i = length hs)) as [->|Hne].
        -- rewrite list_lookup_alter_eq in Hl. rewrite lookup_app_r in Hl by done.
           rewrite Nat.sub_diag in Hl. simpl in Hl. by injection Hl as <-.
        -- rewrite list_lookup_alter_ne in Hl by done.
           destruct (Hnew _ _ Hl Hi) as [? _]. lia.
    + split_and!.
      * intros i h Hl. pose proof (lookup_lt_Some _ _ _ Hl) as Hlt.
        rewrite lookup_app_l by done. by eauto.
      * rewrite fmap_app. apply elem_of_app. right. by apply list_elem_of_singleton.
      * intros i h' Hi Hl. by destruct (Hnew _ _ Hl Hi) as [_ ->].
Qed.

Lemma mergeHost_length (m : gmap string (list PortInfo)) (hs : list HostInfo) host :
  (length hs <= length (mergeHost m hs host))%nat.
Proof.
  unfold mergeHost. destruct (findHost host hs); destruct (m !! host);
    rewrite ?length_alter, ?length_app; simpl; lia.
Qed.

Lemma mergeResults_keeps (m : gmap string (list PortInfo)) hosts (hs : list HostInfo) :
  (forall (i : nat) h, hs !! i = Some h ->
     exists h', mergeResults m hosts hs !! i = Some h'
       /\ Host h' = Host h /\ Status h' = Status h /\ Ports h `prefix_of` Ports h')
  /\ (forall host, host ∈ hosts -> host ∈ Host <$> mergeResults m hosts hs)
  /\ (forall (i : nat) h', (length hs <= i)%nat -> mergeResults m hosts hs !! i = Some h' ->
        Host h' ∈ hosts /\ Status h' = "up").
Proof.
  unfold mergeResults. revert hs. induction hosts as [|host hosts IH]; intros hs; simpl.
  - split_and!; [by eauto|by intros ? ?%elem_of_nil|].
    intros i h' Hi Hl. apply lookup_lt_Some in Hl. lia.
  - destruct (IH (mergeHost m hs host)) as (IH1 & IH2 & IH3).
    destruct (mergeHost_keeps m hs host) as (H1 & H2 & H3).
    split_and!.
    + intros i h Hl. destruct (H1 i h Hl) as (h1 & Hl1 & Hh1 & Hs1 & Hp1).
      destruct (IH1 i h1 Hl1) as (h2 & Hl2 & Hh2 & Hs2 & Hp2).
      exists h2. split_and!; [exact Hl2 | by rewrite Hh2 | by rewrite Hs2 | by etrans].
    + intros x [->|Hx]%elem_of_cons; [|by apply IH2].
      apply list_elem_of_fmap in H2 as (h1 & Hh1 & [i Hl1]%list_elem_of_lookup).
      destruct (IH1 i h1 Hl1) as (h2 & Hl2 & Hh2 & _).
      apply list_elem_of_fmap. exists h2. split; [congruence|].
      by eapply list_elem_of_lookup_2.
    + intros i h' Hi Hl.
      destruct (decide (length (mergeHost m hs host) <= i)%nat) as [Hge|Hlt].
      * destruct (IH3 i h' Hge Hl) as [Hh Hs]. split; [by right|done].
      * assert (is_Some (mergeHost m hs host !! i)) as [h1 Hl1]
          by (apply lookup_lt_is_Some; lia).
        destruct (H3 i h1 Hi Hl1) as [Hh1 Hs1].
        destruct (IH1 i h1 Hl1) as (h2 & Hl2 & Hh2 & Hs2 & _).
        assert (h2 = h') as -> by congruence.
        split; [rewrite Hh2, Hh1; by left | by rewrite Hs2].
Qed.

(** When masscan runs and exits normally, MasscanScan returns what it
    parsed from the output and merges it into the store: every host it
    was given has a record afterwards; the records that were there keep
    their place, host, status and ports, new ports being added behind
    the old ones; and every record that was added is for one of the
    given hosts and has status "up". *)
Theorem MasscanScan_merges (env : Env) (cfg : PDive2) (hosts : list string) (w : World)
    (output : string) :
  hosts <> [] -> lookPath env "masscan" = true -> is_Some (createTemp env) ->
  masscan env hosts = Some output ->
  let store := Hosts (Results w) in
  let store' := Hosts (Results (MasscanScan env cfg hosts w).2) in
  (MasscanScan env cfg hosts w).1 = parseMasscan output
  /\ store' = mergeResults (parseMasscan output) hosts store
  /\ (forall host, host ∈ hosts -> host ∈ Host <$> store')
  /\ (forall (i : nat) h, store !! i = Some h ->
        exists h', store' !! i = Some h'
          /\ Host h' = Host h /\ Status h' = Status h /\ Ports h `prefix_of` Ports h')
  /\ (forall (i : nat) h', (length store <= i)%nat -> store' !! i = Some h' ->
        Host h' ∈ hosts /\ Status h' = "up").
Proof.
  intros Hne Hpath [f Hf] Hout store store'.
  assert ((MasscanScan env cfg hosts w).1 = parseMasscan output
          /\ store' = mergeResults (parseMasscan output) hosts store) as [Hres Hstore].
  { unfold store', store, MasscanScan.
    assert ((len hosts =? 0) = false) as ->.
    { apply Z.eqb_neq. unfold len. destruct hosts; [done|simpl; lia]. }
    by rewrite Hpath, Hf, Hout. }
  destruct (mergeResults_keeps (parseMasscan output) hosts store) as (H1 & H2 & H3).
  rewrite Hstore. by split_and!.
Qed.

Lemma MasscanScan_merges_witness :
  ["10.0.0.5"; "10.0.0.9"] <> []
  /\ lookPath masscanEnv "masscan" = true
  /\ is_Some (createTemp masscanEnv)
  /\ Hosts (Results (MasscanScan masscanEnv (config [] 4) ["10.0.0.5"; "10.0.0.9"]
                       oneHost).2)
     = [mkHostInfo "10.0.0.5" "up" [openPort 80]; upHost "10.0.0.9"].
Proof.
  assert (["10.0.0.5"; "10.0.0.9"] <> [] :> list string) as H1 by done.
  assert (lookPath masscanEnv "masscan" = true) as H2 by (vm_compute; reflexivity).
  assert (is_Some (createTemp masscanEnv)) as H3 by (vm_compute; eauto).
  split_and!; [exact H1 | exact H2 | exact H3 |].
  rewrite (proj1 (proj2 (MasscanScan_merges masscanEnv (config [] 4)
             ["10.0.0.5"; "10.0.0.9"] oneHost _ H1 H2 H3 eq_refl))).
  vm_compute. reflexivity.
Defined.

(** ** The temporary file of the masscan adapter *)

Lemma noTempEvents_closed : segmentClosed (fun tr => noTempEvents tr = true).
Proof.
  split; [done|]. intros a b Ha Hb. unfold noTempEvents in *.
  by rewrite forallb_app, Ha, Hb.
Qed.

Lemma scanHostPorts_noTemp env cfg host ports w :
  extendsBy (fun tr => noTempEvents tr = true) w (scanHostPorts env cfg host ports w).
Proof.
  unfold scanHostPorts, portPool.
  pose proof (runPool_extendsBy _ noTempEvents_closed psWorld (scanWorker env host)
    (sched env) (WorkerPool.goroutines (min (Threads cfg) 50)) ports (mkPortScan [] w)) as Hp.
  destruct Hp as (tr & Htr & Hd).
  { intros port s. unfold scanWorker, scanPort. destruct (dial env _); simpl.
    - exists [EvDial (hostPort host port); EvLock LocalMu; EvUnlock LocalMu].
      split; [|done]. unfold emit. simpl. by rewrite <- (assoc_L (++)).
    - by apply extendsBy_emit. }
  simpl in Htr. exists (tr ++ [EvLock ResultsMutex; EvUnlock ResultsMutex]). split.
  - unfold emit, update. simpl. rewrite Htr. by rewrite <- !(assoc_L (++)).
  - by apply noTempEvents_closed.
Qed.

Lemma fallbackScan_noTemp env cfg hosts w :
  extendsBy (fun tr => noTempEvents tr = true) w (fallbackScan env cfg hosts w).2.
Proof.
  unfold fallbackScan, PortScan, hostPool. simpl.
  pose proof (runPool_extendsBy _ noTempEvents_closed (fun w => w)
    (fun host => scanHostPorts env cfg host commonPorts)
    (sched env) (WorkerPool.goroutines (Threads cfg)) hosts w
    (fun host w' => scanHostPorts_noTemp env cfg host commonPorts w')) as (tr & Htr & Hd).
  exists (tr ++ [EvRLock; EvRUnlock]). split.
  - unfold emit. simpl. rewrite Htr. by rewrite <- !(assoc_L (++)).
  - by apply noTempEvents_closed.
Qed.

(** Once MasscanScan has created its temporary host file, it writes the
    hosts to it, runs masscan, and removes the file as the very last thing
    it does, whether masscan succeeds or the built-in scan takes over; in
    between the file is not touched. Without a created file there is no
    write and no removal. *)
Theorem MasscanScan_temp_file (env : Env) (cfg : PDive2) (hosts : list string) (w : World) :
  (forall f, hosts <> [] -> lookPath env "masscan" = true -> createTemp env = Some f ->
     exists tr,
       trace (MasscanScan env cfg hosts w).2
       = trace w ++ [EvLookPath "masscan"; EvCreateTemp; EvWriteTemp hosts;
                     EvExec "masscan" (masscanArgs f)] ++ tr ++ [EvRemoveTemp]
       /\ noTempEvents tr = true)
  /\ (hosts = [] \/ lookPath env "masscan" = false \/ createTemp env = None ->
      exists tr,
        trace (MasscanScan env cfg hosts w).2 = trace w ++ tr
        /\ (EvRemoveTemp ∉ tr) /\ forall lines, (EvWriteTemp lines ∉ tr)).
Proof.
  split.
  - intros f Hne Hpath Hf. unfold MasscanScan.
    assert ((len hosts =? 0) = false) as ->.
    { apply Z.eqb_neq. unfold len. destruct hosts; [done|simpl; lia]. }
    rewrite Hpath, Hf. cbn [negb]. destruct (masscan env hosts) as [output|].
    + exists [EvLock ResultsMutex; EvUnlock ResultsMutex]. split; [|done].
      unfold emit, update. simpl. by rewrite <- !(assoc_L (++)).
    + change (exists tr, trace (emit [EvRemoveTemp]
                (fallbackScan env cfg hosts
                   (emit [EvWriteTemp hosts; EvExec "masscan" (masscanArgs f)]
                      (emit [EvCreateTemp] (emit [EvLookPath "masscan"] w)))).2)
              = trace w ++ [EvLookPath "masscan"; EvCreateTemp; EvWriteTemp hosts;
                            EvExec "masscan" (masscanArgs f)] ++ tr ++ [EvRemoveTemp]
              /\ noTempEvents tr = true).
      destruct (fallbackScan_noTemp env cfg hosts
        (emit [EvWriteTemp hosts; EvExec "masscan" (masscanArgs f)]
           (emit [EvCreateTemp] (emit [EvLookPath "masscan"] w)))) as (tr & Htr & Hd).
      exists tr. split; [|done]. unfold emit at 1. cbn [trace]. rewrite Htr.
      unfold emit. simpl. by rewrite <- !(assoc_L (++)).
  - assert (forall tr, noTempEvents tr = true ->
                       (EvRemoveTemp ∉ tr) /\ forall lines, (EvWriteTemp lines ∉ tr)) as Hno.
    { intros tr Htr. unfold noTempEvents in Htr. rewrite forallb_forall in Htr.
      split; [|intros lines]; intros Hin%list_elem_of_In%Htr; done. }
    intros Hcase. unfold MasscanScan. destruct (len hosts =? 0) eqn:Hlen.
    { exists []. rewrite app_nil_r. split; [done|]. apply Hno. done. }
    destruct Hcase as [->|[Hpath|Hf]]; [done| |].
    + rewrite Hpath. cbn [negb].
      destruct (fallbackScan_noTemp env cfg hosts (emit [EvLookPath "masscan"] w))
        as (tr & Htr & Hd).
      exists ([EvLookPath "masscan"] ++ tr). split.
      * rewrite Htr. unfold emit. simpl. by rewrite <- !(assoc_L (++)).
      * apply Hno. by apply noTempEvents_closed.
    + destruct (lookPath env "masscan"); cbn [negb].
      * rewrite Hf. exists [EvLookPath "masscan"; EvCreateTemp]. split.
        -- unfold emit. simpl. by rewrite <- !(assoc_L (++)).
        -- split; [|intros lines]; intros Hin; repeat (apply elem_of_cons in Hin as [Hin|Hin];
             [done|]); by apply elem_of_nil in Hin.
      * destruct (fallbackScan_noTemp env cfg hosts (emit [EvLookPath "masscan"] w))
          as (tr & Htr & Hd).
        exists ([EvLookPath "masscan"] ++ tr). split.
        -- rewrite Htr. unfold emit. simpl. by rewrite <- !(assoc_L (++)).
        -- apply Hno. by apply noTempEvents_closed.
Qed.

(** ** Passive discovery *)

Lemma trimRight_cons c (s : string) :
  strings.trimRight (String c s)
  = match strings.trimRight s with
    | EmptyString => if strings.isSpace c then EmptyString else String c EmptyString
    | r => String c r
    end.
Proof. done. Qed.

Lemma trimRight_idemp (s : string) :
  strings.trimRight (strings.trimRight s) = strings.trimRight s.
Proof.
  induction s as [|c s IH]; [done|]. rewrite trimRight_cons.
  destruct (strings.trimRight s) as [|c' r] eqn:Hr.
  - destruct (strings.isSpace c) eqn:Hc; [done|]. rewrite trimRight_cons. simpl.
    by rewrite Hc.
  - rewrite trimRight_cons, IH. done.
Qed.

Lemma trimLeft_trimRight_head (s : string) c r :
  strings.trimLeft s = String c r -> strings.isSpace c = false.
Proof.
  induction s as [|x s IH]; [done|]. simpl.
  destruct (strings.isSpace x) eqn:Hx; [done|]. by intros [= <- _].
Qed.

Lemma trimRight_head (s : string) c r :
  strings.isSpace c = false ->
  exists r', strings.trimRight (String c r) = String c r'.
Proof.
  intros Hc. rewrite trimRight_cons. destruct (strings.trimRight r); [rewrite Hc|]; by eauto.
Qed.

(** Trimming twice is trimming once. *)
Lemma TrimSpace_idemp (s : string) :
  strings.TrimSpace (strings.TrimSpace s) = strings.TrimSpace s.
Proof.
  unfold strings.TrimSpace. destruct (strings.trimLeft s) as [|c r] eqn:Hs; [done|].
  pose proof (trimLeft_trimRight_head _ _ _ Hs) as Hc.
  destruct (trimRight_head r c r Hc) as [r' Hr']. rewrite Hr'.
  assert (strings.trimLeft (String c r') = String c r') as -> by (simpl; by rewrite Hc).
  rewrite <- Hr'. apply trimRight_idemp.
Qed.

Lemma nonEmptyLines_spec output line :
  line ∈ nonEmptyLines output -> line <> "" /\ strings.TrimSpace line = line.
Proof.
  unfold nonEmptyLines. rewrite List_filter_stdpp, list_elem_of_filter.
  intros [Hne (l & -> & _)%list_elem_of_fmap]. split.
  - apply negb_true_iff in Hne. by apply String.eqb_neq in Hne.
  - apply TrimSpace_idemp.
Qed.

Lemma amassDiscovery_spec env domain w :
  (lookPath env "amass" = false ->
   amassDiscovery env domain w = ([], emit [EvLookPath "amass"] w))
  /\ (forall line, line ∈ (amassDiscovery env domain w).1 ->
        line <> "" /\ strings.TrimSpace line = line).
Proof.
  unfold amassDiscovery. split; [by intros ->|].
  destruct (negb (lookPath env "amass")); [by intros ? ?%elem_of_nil|].
  destruct (amass env domain) as [output|]; [|by intros ? ?%elem_of_nil].
  intros line. apply nonEmptyLines_spec.
Qed.

Lemma passiveLoop_lines env targets found w :
  Forall (fun line => line <> "" /\ strings.TrimSpace line = line) found ->
  Forall (fun line => line <> "" /\ strings.TrimSpace line = line)
         (passiveLoop env targets found w).1.
Proof.
  revert found w. induction targets as [|target targets IH]; intros found w Hf; simpl;
    [done|].
  destruct (String.eqb (extractDomain env target) ""); [by apply IH|].
  pose proof (proj2 (amassDiscovery_spec env (extractDomain env target) w)) as Ha.
  destruct (amassDiscovery env (extractDomain env target) w) as [hosts w'].
  apply IH, Forall_app. split; [done|]. by apply Forall_forall.
Qed.

Lemma spawnsNoProcess_closed : segmentClosed (fun tr => spawnsNoProcess tr = true).
Proof.
  split; [done|]. intros a b Ha Hb. unfold spawnsNoProcess in *.
  by rewrite forallb_app, Ha, Hb.
Qed.

Lemma passiveLoop_no_amass env targets found w :
  lookPath env "amass" = false ->
  (passiveLoop env targets found w).1 = found
  /\ extendsBy (fun tr => spawnsNoProcess tr = true) w (passiveLoop env targets found w).2.
Proof.
  intros Hpath. revert w. induction targets as [|target targets IH]; intros w; simpl.
  { split; [done|]. apply extendsBy_refl, spawnsNoProcess_closed. }
  destruct (String.eqb (extractDomain env target) ""); [apply IH|].
  rewrite (proj1 (amassDiscovery_spec env (extractDomain env target) w) Hpath).
  rewrite app_nil_r. destruct (IH (emit [EvLookPath "amass"] w)) as [IH1 IH2].
  split; [done|].
  eapply extendsBy_trans; [apply spawnsNoProcess_closed| |exact IH2].
  by apply extendsBy_emit.
Qed.

(** PassiveDiscovery returns each host amass reported once: non-empty
    lines without surrounding white space; it appends one record per
    returned host, with status "discovered" and no ports, behind the
    records already stored and changes nothing else. When amass is not on
    the path it returns nothing, adds no record and starts no process. *)
Theorem PassiveDiscovery_spec (env : Env) (cfg : PDive2) (w : World) :
  let discovered := (PassiveDiscovery env cfg w).1 in
  let w' := (PassiveDiscovery env cfg w).2 in
  NoDup discovered
  /\ Forall (fun host => host <> "" /\ strings.TrimSpace host = host) discovered
  /\ Hosts (Results w') = Hosts (Results w) ++ (discoveredHost <$> discovered)
  /\ UnresponsiveHosts (Results w') = UnresponsiveHosts (Results w)
  /\ (lookPath env "amass" = false ->
      discovered = [] /\ Hosts (Results w') = Hosts (Results w)
      /\ extendsBy (fun tr => spawnsNoProcess tr = true) w w').
Proof.
  intros discovered w'.
  pose proof (PassiveDiscovery_hosts env cfg w) as Hhosts. fold discovered w' in Hhosts.
  unfold discovered, w', PassiveDiscovery in *.
  pose proof (passiveLoop_lines env (Targets cfg) [] w (Forall_nil_2 _)) as Hlines.
  pose proof (passiveLoop_results env (Targets cfg) [] w) as Hres.
  pose proof (passiveLoop_no_amass env (Targets cfg) [] w) as Hno.
  destruct (passiveLoop env (Targets cfg) [] w) as [found w1]. simpl in *.
  rewrite removeDuplicates_firstSeen in *. split_and!.
  - apply NoDup_firstSeen.
  - rewrite Forall_forall in Hlines. apply Forall_forall.
    intros host Hin. rewrite ?removeDuplicates_firstSeen, ?elem_of_firstSeen in Hin.
    by apply Hlines.
  - done.
  - by rewrite Hres.
  - intros Hpath. destruct (Hno Hpath) as [-> Hsp]. simpl. split_and!; [done| |].
    + rewrite Hres. by rewrite app_nil_r.
    + destruct Hsp as (tr & Htr & Hd).
      exists (tr ++ [EvLock ResultsMutex; EvUnlock ResultsMutex]). split.
      * unfold emit, update. simpl. rewrite Htr. by rewrite <- !(assoc_L (++)).
      * by apply spawnsNoProcess_closed.
Qed.

(** ** Edge cases of the scanning phases *)

Lemma keysOf_empty : keysOf ∅ = [].
Proof. unfold keysOf. by rewrite map_to_list_empty. Qed.

Lemma nonPing_empty_map allHosts : nonPing ∅ allHosts = allHosts.
Proof.
  unfold nonPing. induction allHosts as [|h l IH]; [done|]. simpl.
  unfold seen at 1. rewrite lookup_empty. simpl. by rewrite IH.
Qed.

(** With a thread count of 0 or less HostDiscovery probes nothing: it
    returns no live host, adds no record, counts every expanded target as
    unresponsive and only takes and releases the store's lock. *)
Theorem HostDiscovery_without_threads (env : Env) (fuel : nat) (cfg : PDive2) (w : World)
    (allHosts : list string) :
  Threads cfg <= 0 ->
  expandTargets env fuel cfg = Some allHosts ->
  exists w',
    HostDiscovery env fuel cfg w = Some ([], w')
    /\ Hosts (Results w') = Hosts (Results w)
    /\ UnresponsiveHosts (Results w') = len allHosts
    /\ trace w' = trace w ++ [EvLock ResultsMutex; EvUnlock ResultsMutex].
Proof.
  intros Hthreads Hexp. unfold HostDiscovery. rewrite Hexp.
  assert (discoverFrom env cfg allHosts w = mkDiscovery ∅ w) as ->.
  { unfold discoverFrom, phase1, phase2.
    rewrite (goroutines_nonpos (Threads cfg)) by done.
    rewrite (goroutines_nonpos (min (Threads cfg) 20)) by (rewrite min_spec; lia).
    rewrite !runPool_zero. simpl. by destruct (0 <? _). }
  simpl. rewrite keysOf_empty. eexists. split; [done|].
  unfold commitDiscovery. simpl. split_and!.
  - by rewrite app_nil_r.
  - unfold len. simpl. lia.
  - by rewrite <- (assoc_L (++)).
Qed.

Lemma HostDiscovery_without_threads_witness :
  Threads (config ["10.0.0.4/30"] 0) <= 0
  /\ expandTargets pingEnv 10 (config ["10.0.0.4/30"] 0)
     = Some ["10.0.0.4"; "10.0.0.5"; "10.0.0.6"; "10.0.0.7"]
  /\ exists w',
       HostDiscovery pingEnv 10 (config ["10.0.0.4/30"] 0) emptyWorld = Some ([], w')
       /\ Hosts (Results w') = Hosts (Results emptyWorld)
       /\ UnresponsiveHosts (Results w')
          = len ["10.0.0.4"; "10.0.0.5"; "10.0.0.6"; "10.0.0.7"]
       /\ trace w' = trace emptyWorld ++ [EvLock ResultsMutex; EvUnlock ResultsMutex].
Proof.
  assert (Threads (config ["10.0.0.4/30"] 0) <= 0) as H1 by (simpl; lia).
  assert (expandTargets pingEnv 10 (config ["10.0.0.4/30"] 0)
          = Some ["10.0.0.4"; "10.0.0.5"; "10.0.0.6"; "10.0.0.7"]) as H2
    by (vm_compute; reflexivity).
  split_and!; [exact H1 | exact H2 |].
  exact (HostDiscovery_without_threads pingEnv 10 (config ["10.0.0.4/30"] 0) emptyWorld
           _ H1 H2).
Defined.

Lemma scanHostPorts_absent env cfg host ports w :
  host ∉ Host <$> Hosts (Results w) ->
  Results (scanHostPorts env cfg host ports w) = Results w.
Proof.
  intros Habs%(findHostFrom_None 0). unfold scanHostPorts. simpl.
  rewrite portPool_results, setPortsFirst_absent by done. by destruct (Results w).
Qed.

(** PortScan records nothing for hosts that have no record in the store:
    their ports are probed and the findings dropped. With a thread count
    of 0 or less it does nothing at all. *)
Theorem PortScan_unknown_hosts (env : Env) (cfg : PDive2) (hosts : list string) (w : World) :
  ((forall host, host ∈ hosts -> host ∉ Host <$> Hosts (Results w)) ->
   Results (PortScan env cfg hosts w) = Results w)
  /\ (Threads cfg <= 0 -> PortScan env cfg hosts w = w).
Proof.
  split.
  - intros Habs. unfold PortScan, hostPool.
    apply (runPool_preserves _ (fun w' => Results w' = Results w)); [done|].
    intros host w' Hin Hw'. rewrite <- Hw'. apply scanHostPorts_absent.
    rewrite Hw'. by apply Habs.
  - intros Hthreads. unfold PortScan, hostPool.
    rewrite (goroutines_nonpos (Threads cfg)) by done. by rewrite runPool_zero.
Qed.

Lemma PortScan_unknown_hosts_witness :
  (forall host, host ∈ ["10.0.0.9"] -> host ∉ Host <$> Hosts (Results oneHost))
  /\ Results (PortScan rescanEnv (config [] 4) ["10.0.0.9"] oneHost) = Results oneHost.
Proof.
  assert (forall host, host ∈ ["10.0.0.9"] -> host ∉ Host <$> Hosts (Results oneHost)) as H.
  { intros host ->%list_elem_of_singleton. simpl. by intros [=]%list_elem_of_singleton. }
  split; [exact H|].
  exact (proj1 (PortScan_unknown_hosts rescanEnv (config [] 4) ["10.0.0.9"] oneHost) H).
Defined.

(** ** The worker pool neither deadlocks nor runs forever *)

Lemma sum_replicate_idle {T : Type} (n : nat) :
  sum_list (WorkerPool.weight <$> replicate n (@WorkerPool.Idle T)) = n.
Proof. induction n as [|n IH]; [done|]. simpl in *. by f_equal. Qed.

Lemma allDone_step {T St : Type} (work : T -> St -> St) (p : WorkerPool.pool T St) i :
  WorkerPool.allDone p = true -> WorkerPool.step work i p = None.
Proof.
  intros Hall%active_nil. unfold WorkerPool.step.
  destruct (WorkerPool.workers p !! i) as [[|x|]|] eqn:Hi; try done.
  - assert (i ∈ WorkerPool.active p) as Hin by (apply elem_of_active; eauto).
    rewrite Hall in Hin. by apply elem_of_nil in Hin.
  - assert (i ∈ WorkerPool.active p) as Hin by (apply elem_of_active; eauto).
    rewrite Hall in Hin. by apply elem_of_nil in Hin.
Qed.

(** Until every goroutine has left its loop some goroutine can move, once
    they all have none can, and every move lowers a measure that starts at
    3 * (number of items) + (number of goroutines): no interleaving of
    a pool deadlocks or makes more moves than that. *)
Theorem pool_progress_and_termination {T St : Type} (work : T -> St -> St)
    (n : nat) (items : list T) (s0 : St) :
  WorkerPool.measure (WorkerPool.init n items s0) = (3 * length items + n)%nat
  /\ (forall p i p', WorkerPool.step work i p = Some p' ->
        (WorkerPool.measure p' < WorkerPool.measure p)%nat)
  /\ (forall p, WorkerPool.allDone p = false ->
        exists i p', WorkerPool.step work i p = Some p')
  /\ (forall p i, WorkerPool.allDone p = true -> WorkerPool.step work i p = None).
Proof.
  split_and!.
  - unfold WorkerPool.measure, WorkerPool.init.
    cbn [WorkerPool.chan WorkerPool.workers]. by rewrite sum_replicate_idle.
  - intros p i p'. apply step_measure.
  - intros p Hnot. destruct (WorkerPool.active p) as [|i l] eqn:Hact.
    + apply active_nil in Hact. congruence.
    + assert (i ∈ WorkerPool.active p) as [p' Hp']%(active_step work) by (rewrite Hact; left).
      by eauto.
  - intros p i. apply allDone_step.
Qed.

(** ** The mapping read back by the fallback *)

Lemma readBack_from_value (hs : list HostInfo) (m : gmap string (list PortInfo)) h :
  NoDup (Host <$> hs) -> h ∈ hs -> Ports h <> [] ->
  fold_left readBackStep hs m !! Host h = Some (Ports h).
Proof.
  revert m. induction hs as [|h0 hs IH]; intros m Hnd Hin Hp; [by apply elem_of_nil in Hin|].
  csimpl in Hnd. apply NoDup_cons in Hnd as [Hnotin Hnd]. simpl.
  apply elem_of_cons in Hin as [->|Hin]; [|by apply IH].
  unfold readBackStep at 2. rewrite (proj2 (len_pos_iff (Ports h0))) by done.
  clear IH Hnd. revert m. induction hs as [|h1 hs IH]; intros m; simpl.
  - by rewrite lookup_insert_eq.
  - csimpl in Hnotin. apply not_elem_of_cons in Hnotin as [Hne Hnotin].
    unfold readBackStep at 2. destruct (0 <? len (Ports h1)).
    + rewrite insert_insert_ne by done. by apply IH.
    + by apply IH.
Qed.

(** When the hosts of the store are unique, the fallback maps each host
    that has ports to exactly the ports of its record. *)
Theorem readBack_value (hs : list HostInfo) (h : HostInfo) :
  NoDup (Host <$> hs) -> h ∈ hs -> Ports h <> [] ->
  readBack hs !! Host h = Some (Ports h).
Proof. apply readBack_from_value. Qed.

Lemma readBack_value_witness :
  NoDup (Host <$> [mkHostInfo "a" "up" [openPort 22]; upHost "b"])
  /\ readBack [mkHostInfo "a" "up" [openPort 22]; upHost "b"] !! "a" = Some [openPort 22].
Proof.
  assert (NoDup (Host <$> [mkHostInfo "a" "up" [openPort 22]; upHost "b"])) as H
    by (apply (bool_decide_unpack _); vm_compute; reflexivity).
  split; [exact H|].
  apply (readBack_value _ (mkHostInfo "a" "up" [openPort 22]) H); [left|done].
Defined.

(** ** The run of a scan *)

Lemma hostMapOf_from (hs : list HostInfo) (m : gmap string bool) host :
  seen (fold_left (fun hostMap host => <[Host host := true]> hostMap) hs m) host = true
  <-> seen m host = true \/ host ∈ Host <$> hs.
Proof.
  revert m. induction hs as [|h hs IH]; intros m; simpl.
  - split; [by left|]. intros [?|[]%elem_of_nil]. done.
  - rewrite IH. unfold seen. destruct (decide (Host h = host)) as [->|Hne].
    + rewrite lookup_insert_eq. simpl. split; [intros _|by left]. right. left.
    + rewrite lookup_insert_ne by done. rewrite elem_of_cons. naive_solver.
Qed.

Lemma seen_hostMapOf (hs : list HostInfo) host :
  seen (hostMapOf hs) host = true <-> host ∈ Host <$> hs.
Proof.
  unfold hostMapOf. rewrite hostMapOf_from. unfold seen. rewrite lookup_empty. simpl.
  naive_solver.
Qed.

Lemma ensureStep_fold (hostMap : gmap string bool) (l : list string) (hs : list HostInfo) :
  fold_left (ensureStep hostMap) l hs
  = hs ++ (upHost <$> filter (fun host => seen hostMap host <> true) l).
Proof.
  revert hs. induction l as [|host l IH]; intros hs; simpl.
  - by rewrite app_nil_r.
  - rewrite IH. unfold ensureStep.
    destruct (seen hostMap host) eqn:Hseen; simpl.
    + rewrite filter_cons_False; [done|]. rewrite Hseen. by intros [].
    + rewrite filter_cons_True by (by rewrite Hseen). by rewrite <- (assoc_L (++)).
Qed.

Lemma findHost_is_Some host (hs : list HostInfo) :
  is_Some (findHost host hs) <-> host ∈ Host <$> hs.
Proof.
  unfold findHost. rewrite <- not_eq_None_Some, findHostFrom_None.
  split; [apply dec_stable | by intros ? ?].
Qed.

(** The block of RunScan that prepares the port scan appends an "up"
    record for each discovered host that has none, in the order of the
    list, and changes nothing else: afterwards every discovered host has a
    record, and a store with unique hosts stays so when the list has no
    repetition. *)
Theorem ensureHosts_spec (allDiscoveredHosts : list string) (w : World) :
  let store := Hosts (Results w) in
  let w' := ensureHosts allDiscoveredHosts w in
  Hosts (Results w')
  = store ++ (upHost <$> filter (fun host => host ∉ Host <$> store) allDiscoveredHosts)
  /\ UnresponsiveHosts (Results w') = UnresponsiveHosts (Results w)
  /\ trace w' = trace w ++ [EvLock ResultsMutex; EvUnlock ResultsMutex]
  /\ (forall host, host ∈ allDiscoveredHosts -> is_Some (findHost host (Hosts (Results w'))))
  /\ (NoDup allDiscoveredHosts -> hostsUnique (Results w) -> hostsUnique (Results w')).
Proof.
  intros store w'.
  assert (Hosts (Results w')
          = store ++ (upHost <$> filter (fun host => host ∉ Host <$> store)
                                   allDiscoveredHosts)) as Hstore.
  { unfold w', ensureHosts. simpl. rewrite ensureStep_fold. do 2 f_equal.
    apply list_filter_iff. intros host. by rewrite seen_hostMapOf. }
  split_and!.
  - done.
  - done.
  - unfold w', ensureHosts. simpl. by rewrite <- (assoc_L (++)).
  - intros host Hin. apply findHost_is_Some. rewrite Hstore, fmap_app, elem_of_app.
    destruct (decide (host ∈ Host <$> store)) as [?|Hnot]; [by left|right].
    rewrite <- list_fmap_compose. apply list_elem_of_fmap. exists host.
    split; [done|]. by apply list_elem_of_filter.
  - intros Hnd Hu. unfold hostsUnique in *. rewrite Hstore, fmap_app.
    apply NoDup_app. split_and!; [done| |].
    + intros host Hin. rewrite <- list_fmap_compose.
      intros (host' & -> & [Hnot _]%list_elem_of_filter)%list_elem_of_fmap. done.
    + rewrite <- list_fmap_compose.
      rewrite (list_fmap_ext (Host ∘ upHost) id _ (fun _ _ _ => eq_refl)).
      rewrite list_fmap_id. by apply NoDup_filter.
Qed.

(** ** Loading the target file *)

Lemma scanTargets_spec (lines : list string) :
  scanTargets lines
  = filter (fun target => target <> "" /\ strings.HasPrefix target "#" = false)
      (strings.TrimSpace <$> lines).
Proof.
  unfold scanTargets. induction (strings.TrimSpace <$> lines) as [|t l IH]; [done|].
  simpl. rewrite filter_cons, IH.
  destruct (String.eqb_spec t ""), (strings.HasPrefix t "#") eqn:Hp; simpl.
  - rewrite decide_False; [done|]. by intros [? _].
  - rewrite decide_False; [done|]. by intros [? _].
  - rewrite decide_False; [done|]. by intros [_ ?].
  - by rewrite decide_True.
Qed.

(** LoadTargetsFromFile returns, in file order, the trimmed lines that are
    neither empty nor comments; a file made of the targets it returned,
    one per line, loads to the same targets. *)
Theorem LoadTargetsFromFile_spec (file : option (list string * bool))
    (targets : list string) :
  LoadTargetsFromFile file = Some targets ->
  (exists lines, file = Some (lines, false)
     /\ targets = filter (fun target => target <> ""
                                        /\ strings.HasPrefix target "#" = false)
                    (strings.TrimSpace <$> lines))
  /\ Forall (fun target => target <> "" /\ strings.TrimSpace target = target
                           /\ strings.HasPrefix target "#" = false) targets
  /\ LoadTargetsFromFile (Some (targets, false)) = Some targets.
Proof.
  destruct file as [[lines []]|]; simpl; try done. intros [= <-].
  assert (Forall (fun target => target <> "" /\ strings.TrimSpace target = target
                                /\ strings.HasPrefix target "#" = false)
            (scanTargets lines)) as Hall.
  { rewrite scanTargets_spec. apply Forall_forall.
    intros t [[Hne Hp] (line & -> & _)%list_elem_of_fmap]%list_elem_of_filter.
    split_and!; [done|apply TrimSpace_idemp|done]. }
  split_and!.
  - exists lines. split; [done|]. apply scanTargets_spec.
  - done.
  - f_equal. rewrite (scanTargets_spec (scanTargets lines)).
    induction Hall as [|t l (Hne & Htrim & Hp) _ IH]; [done|].
    csimpl. rewrite Htrim, filter_cons_True by done. by rewrite IH.
Qed.

Lemma LoadTargetsFromFile_spec_witness :
  LoadTargetsFromFile (Some (["# lab"; " 10.0.0.4/30 "; ""; "example.com"], false))
  = Some ["10.0.0.4/30"; "example.com"]
  /\ Forall (fun target => target <> "" /\ strings.TrimSpace target = target
                           /\ strings.HasPrefix target "#" = false)
       ["10.0.0.4/30"; "example.com"].
Proof.
  assert (LoadTargetsFromFile (Some (["# lab"; " 10.0.0.4/30 "; ""; "example.com"], false))
          = Some ["10.0.0.4/30"; "example.com"]) as H by (vm_compute; reflexivity).
  split; [exact H|].
  exact (proj1 (proj2 (LoadTargetsFromFile_spec _ _ H))).
Defined.

(** ** Decimal numbers *)

Lemma digits_string_of_uint (d : Decimal.uint) (acc : Z) :
  strconv.digits acc (NilEmpty.string_of_uint d) = Some (digitsVal acc d).
Proof. revert acc. induction d; intros acc; simpl; try done; apply IHd. Qed.

Lemma digitsVal_pos (d : Decimal.uint) (acc : positive) :
  digitsVal (Z.pos acc) d = Z.pos (Pos.of_uint_acc d acc).
Proof.
  revert acc. induction d; intros acc; simpl; try done;
    rewrite <- IHd; f_equal; lia.
Qed.

Lemma digitsVal_zero (d : Decimal.uint) : digitsVal 0 d = Z.of_N (Pos.of_uint d).
Proof.
  induction d; simpl; try done;
    match goal with |- digitsVal ?k _ = _ => change k with (Z.pos (Z.to_pos k)) end;
    by rewrite digitsVal_pos.
Qed.

Lemma string_of_uint_head (d : Decimal.uint) :
  d <> Decimal.Nil ->
  exists c s, NilEmpty.string_of_uint d = String c s
    /\ Ascii.eqb c "-" = false /\ Ascii.eqb c "+" = false.
Proof. destruct d; [done|..]; intros _; simpl; eauto. Qed.

Lemma to_uint_not_nil (p : positive) : Pos.to_uint p <> Decimal.Nil.
Proof.
  intros Hnil. pose proof (DecimalPos.Unsigned.of_to p) as Hof.
  rewrite Hnil in Hof. done.
Qed.

Lemma Atoi_unsigned (c : ascii) (s : string) (n : Z) :
  Ascii.eqb c "-" = false -> Ascii.eqb c "+" = false ->
  strconv.digits 0 (String c s) = Some n ->
  strconv.minInt <= n <= strconv.maxInt -> strconv.Atoi (String c s) = Some n.
Proof.
  intros Hm Hp Hdig Hrange. unfold strconv.Atoi. rewrite Hm, Hp, Hdig.
  destruct (Z.leb_spec strconv.minInt n); [|lia].
  destruct (Z.leb_spec n strconv.maxInt); [done|lia].
Qed.

Lemma Atoi_negative (c : ascii) (s : string) (n : Z) :
  strconv.digits 0 (String c s) = Some n ->
  strconv.minInt <= - n <= strconv.maxInt ->
  strconv.Atoi (String "-" (String c s)) = Some (- n).
Proof.
  intros Hdig Hrange. unfold strconv.Atoi.
  change (Ascii.eqb "-" "-") with true. cbv iota. rewrite Hdig.
  destruct (Z.leb_spec strconv.minInt (- n)); [|lia].
  destruct (Z.leb_spec (- n) strconv.maxInt); [done|lia].
Qed.

Lemma digits_to_uint (p : positive) :
  exists c s, NilZero.string_of_uint (Pos.to_uint p) = String c s
    /\ Ascii.eqb c "-" = false /\ Ascii.eqb c "+" = false
    /\ strconv.digits 0 (String c s) = Some (Z.pos p).
Proof.
  destruct (string_of_uint_head (Pos.to_uint p) (to_uint_not_nil p))
    as (c & s & Hs & Hm & Hp).
  exists c, s. split_and!; [|done|done|].
  - rewrite <- Hs. unfold NilZero.string_of_uint.
    destruct (Pos.to_uint p) eqn:Hd; [by destruct (to_uint_not_nil p)|done..].
  - rewrite <- Hs, digits_string_of_uint, digitsVal_zero.
    by rewrite DecimalPos.Unsigned.of_to.
Qed.

(** The decimal text of a Go [int] reads back as the number. *)
Lemma Atoi_Itoa (n : Z) :
  strconv.minInt <= n <= strconv.maxInt -> strconv.Atoi (strconv.Itoa n) = Some n.
Proof.
  intros Hrange. unfold strconv.Itoa. destruct n as [|p|p]; [done| |].
  - destruct (digits_to_uint p) as (c & s & Hs & Hm & Hp & Hdig).
    cbn [Z.to_int NilZero.string_of_int]. rewrite Hs. by apply Atoi_unsigned.
  - destruct (digits_to_uint p) as (c & s & Hs & Hm & Hp & Hdig).
    cbn [Z.to_int NilZero.string_of_int]. rewrite Hs.
    change (Z.neg p) with (- Z.pos p) in *. by apply Atoi_negative.
Qed.

(** ** Reports and the run of a scan *)

(** ** The CSV report *)

Lemma totalPorts_from (hs : list HostInfo) (total : Z) :
  fold_left (fun total host => total + len (Ports host)) hs total
  = total + totalPorts hs.
Proof.
  unfold totalPorts. revert total. induction hs as [|h hs IH]; intros total; simpl; [lia|].
  rewrite IH, (IH (0 + _)). lia.
Qed.

Lemma totalPorts_cons (h : HostInfo) (hs : list HostInfo) :
  totalPorts (h :: hs) = len (Ports h) + totalPorts hs.
Proof. unfold totalPorts at 1. simpl. by rewrite totalPorts_from. Qed.

Lemma len_app {A : Type} (l1 l2 : list A) : len (l1 ++ l2) = len l1 + len l2.
Proof. unfold len. rewrite length_app. lia. Qed.

Lemma hostRecords_len scanTime (h : HostInfo) :
  len (hostRecords scanTime h) = len (Ports h) + (if decide (Ports h = []) then 1 else 0).
Proof.
  unfold hostRecords. destruct (Ports h) as [|port ports]; [done|].
  rewrite (proj2 (len_pos_iff (port :: ports))) by done.
  rewrite decide_False by done. unfold len. rewrite length_fmap. lia.
Qed.

Lemma elem_of_concat {A : Type} (x : A) (ls : list (list A)) :
  x ∈ concat ls <-> exists l, x ∈ l /\ l ∈ ls.
Proof.
  induction ls as [|l ls IH]; simpl.
  - split; [by intros ?%elem_of_nil | by intros (l & _ & ?%elem_of_nil)].
  - rewrite elem_of_app, IH. split.
    + intros [?|(l' & ? & ?)]; [exists l; split; [done|left] | exists l'; split; [done|by right]].
    + intros (l' & Hx & [->|?]%elem_of_cons); [by left | right; by exists l'].
Qed.

Lemma serviceName_nonempty (port : PortInfo) : serviceName port <> "".
Proof. unfold serviceName. by destruct (String.eqb_spec (Service port) ""). Qed.

Lemma hostRecords_fields scanTime (h : HostInfo) :
  Forall (fun record => length record = 6%nat /\ record !! 0%nat = Some (Host h)
                        /\ record !! 4%nat <> Some "") (hostRecords scanTime h).
Proof.
  unfold hostRecords. destruct (0 <? len (Ports h)).
  - apply Forall_fmap, Forall_forall. intros port _. simpl. split_and!; [done..|].
    intros [= Hs]. by apply (serviceName_nonempty port).
  - by repeat constructor.
Qed.

(** The CSV file of GenerateReport has one record of six fields per open
    port and one per host without ports after its header, so the number of
    its records is 1 + the summary's count of open ports + the number of
    hosts without ports; every host of the store appears in it, no service
    field is empty, and the port field of a port's record reads back as
    the port number. Writing the reports leaves the store as it is. *)
Theorem GenerateReport_csv (sys : Sys) (w : World) (records : list (list string)) :
  (GenerateReport sys w).1 = Some records ->
  let hs := Hosts (Results w) in
  Forall (fun record => length record = 6%nat /\ record !! 4%nat <> Some "") records
  /\ len records = 1 + totalPorts hs + len (filter (fun h => Ports h = []) hs)
  /\ (forall h, h ∈ hs ->
        exists record, record ∈ records /\ record !! 0%nat = Some (Host h))
  /\ (forall h port, h ∈ hs -> port ∈ Ports h ->
        strconv.minInt <= Port port <= strconv.maxInt ->
        exists portStr,
          [Host h; portStr; "tcp"; State port; serviceName port; StartTime sys] ∈ records
          /\ strconv.Atoi portStr = Some (Port port))
  /\ Results (GenerateReport sys w).2 = Results w.
Proof.
  unfold GenerateReport. destruct (MkdirAll sys); [|done]. simpl.
  destruct (CreateCsv sys); [|by destruct (CreateTxt sys)]. simpl.
  assert (Hosts (Results (if CreateTxt sys
                          then emit [EvRLock; EvRUnlock] (emit [EvRLock; EvRUnlock] w)
                          else emit [EvRLock; EvRUnlock] w)) = Hosts (Results w)) as ->
    by (by destruct (CreateTxt sys)).
  intros [= <-]. set (hs := Hosts (Results w)). unfold csvRecords. split_and!.
  - constructor; [by split|]. apply Forall_concat, Forall_fmap, Forall_forall.
    intros h _. eapply Forall_impl; [apply hostRecords_fields|]. naive_solver.
  - rewrite len_cons. induction hs as [|h l IH]; [done|].
    csimpl. rewrite len_app, hostRecords_len, totalPorts_cons, filter_cons.
    destruct (decide (Ports h = [])); rewrite ?len_cons; lia.
  - intros h Hin. pose proof (hostRecords_fields (StartTime sys) h) as Hf.
    assert (exists record, record ∈ hostRecords (StartTime sys) h) as [record Hrec].
    { unfold hostRecords. destruct (0 <? len (Ports h)) eqn:Hlen.
      - apply len_pos_iff in Hlen. destruct (Ports h) as [|port ports]; [done|].
        eexists. left.
      - eexists. left. }
    exists record. split.
    + right. apply elem_of_concat. exists (hostRecords (StartTime sys) h).
      split; [done|]. apply list_elem_of_fmap. by exists h.
    + rewrite Forall_forall in Hf. by apply Hf.
  - intros h port Hin Hport Hrange. exists (strconv.Itoa (Port port)).
    split; [|by apply Atoi_Itoa]. right.
    apply elem_of_concat. exists (hostRecords (StartTime sys) h).
    split; [|apply list_elem_of_fmap; by exists h].
    unfold hostRecords. rewrite (proj2 (len_pos_iff (Ports h))).
    + apply list_elem_of_fmap. by exists port.
    + intros Hnil. rewrite Hnil in Hport. by apply elem_of_nil in Hport.
  - by destruct (CreateTxt sys).
Qed.

Lemma GenerateReport_csv_witness :
  exists records,
    (GenerateReport resolvingSys webWorld).1 = Some records
    /\ Forall (fun record => length record = 6%nat /\ record !! 4%nat <> Some "") records
    /\ len records = 1 + totalPorts (Hosts (Results webWorld))
                     + len (filter (fun h => Ports h = []) (Hosts (Results webWorld))).
Proof.
  eexists. split; [vm_compute; reflexivity|].
  pose proof (GenerateReport_csv resolvingSys webWorld _ eq_refl) as H.
  exact (conj (proj1 H) (proj1 (proj2 H))).
Defined.

(** ** The run of a scan *)

Lemma extendsBy_and (P Q : list Event -> Prop) w w' :
  extendsBy P w w' -> extendsBy Q w w' -> extendsBy (fun tr => P tr /\ Q tr) w w'.
Proof.
  intros (a & Ha & HPa) (b & Hb & HQb). rewrite Ha in Hb.
  apply app_inv_head in Hb as ->. by exists b.
Qed.

Lemma passiveOnly_closed : segmentClosed (fun tr => passiveOnly tr = true).
Proof.
  split; [done|]. intros a b Ha Hb. unfold passiveOnly in *.
  by rewrite forallb_app, Ha, Hb.
Qed.

Lemma passiveLoop_passiveOnly env targets found w :
  extendsBy (fun tr => passiveOnly tr = true) w (passiveLoop env targets found w).2.
Proof.
  revert found w. induction targets as [|target rest IH]; intros found w; simpl.
  - apply extendsBy_refl, passiveOnly_closed.
  - destruct (String.eqb (extractDomain env target) ""); [apply IH|].
    destruct (amassDiscovery env (extractDomain env target) w) as [hosts w'] eqn:Ha.
    eapply extendsBy_trans; [apply passiveOnly_closed| |apply IH].
    unfold amassDiscovery in Ha. destruct (negb (lookPath env "amass")).
    + injection Ha as _ <-. by apply extendsBy_emit.
    + destruct (amass env _); injection Ha as _ <-; rewrite emit_emit;
        by apply extendsBy_emit.
Qed.

Lemma PassiveDiscovery_passiveOnly env cfg w :
  extendsBy (fun tr => passiveOnly tr = true) w (PassiveDiscovery env cfg w).2.
Proof.
  unfold PassiveDiscovery.
  pose proof (passiveLoop_passiveOnly env (Targets cfg) [] w) as (tr & Htr & Hd).
  destruct (passiveLoop env (Targets cfg) [] w) as [found w']. simpl in *.
  exists (tr ++ [EvLock ResultsMutex; EvUnlock ResultsMutex]). split.
  - unfold emit, update. simpl. rewrite Htr. by rewrite <- !(assoc_L (++)).
  - by apply passiveOnly_closed.
Qed.

Lemma quiet_closed : segmentClosed quiet.
Proof.
  split.
  - split; [done|apply disciplined_closed].
  - intros a b [Ha1 Ha2] [Hb1 Hb2]. split.
    + by apply passiveOnly_closed.
    + by apply disciplined_closed.
Qed.

Lemma GeneratePassiveReport_quiet sys w :
  extendsBy quiet w (GeneratePassiveReport sys w).2
  /\ Results (GeneratePassiveReport sys w).2 = Results w.
Proof.
  unfold GeneratePassiveReport.
  destruct (MkdirAll sys); simpl; [|split; [apply extendsBy_refl, quiet_closed|done]].
  destruct (CreateTxt sys), (CreateCsv sys); simpl; rewrite ?emit_emit;
    (split; [apply extendsBy_emit; by split|done]).
Qed.

(** In passive mode RunScan always returns, whatever the targets are, and
    between its start and its end it only looks programs up, runs amass
    and takes the store's lock, which it never holds across a call and
    leaves released: it dials no port, pings no host and sends no HTTP
    request. The store grows by one "discovered" record per distinct host
    amass reported. *)
Theorem RunScan_passive (env : Env) (sys : Sys) (fuel : nat) (cfg : PDive2) (w : World) :
  DiscoveryMode cfg = "passive" ->
  exists csv w' discovered,
    RunScan env sys fuel cfg w = Some (csv, w')
    /\ extendsBy (fun tr => passiveOnly tr = true /\ disciplined tr) w w'
    /\ NoDup discovered
    /\ Hosts (Results w') = Hosts (Results w) ++ (discoveredHost <$> discovered)
    /\ UnresponsiveHosts (Results w') = UnresponsiveHosts (Results w).
Proof.
  intros Hmode. unfold RunScan.
  destruct (ValidateTargets env sys cfg) as [valid cfg'] eqn:Hv.
  assert (DiscoveryMode cfg' = "passive") as Hmode'.
  { unfold ValidateTargets in Hv. by injection Hv as _ <-. }
  destruct valid; simpl.
  2:{ exists None, w, []. split_and!; [done| |constructor|by rewrite app_nil_r|done].
      apply (extendsBy_refl _ quiet_closed). }
  rewrite Hmode'. simpl.
  pose proof (PassiveDiscovery_hosts env cfg' w) as Hhosts.
  pose proof (PassiveDiscovery_passiveOnly env cfg' w) as Hp.
  pose proof (PassiveDiscovery_trace env cfg' w) as Hd.
  pose proof (extendsBy_and _ _ _ _ Hp Hd) as Hq.
  assert (NoDup (PassiveDiscovery env cfg' w).1
          /\ UnresponsiveHosts (Results (PassiveDiscovery env cfg' w).2)
             = UnresponsiveHosts (Results w)) as [Hnd Hun].
  { unfold PassiveDiscovery.
    pose proof (passiveLoop_results env (Targets cfg') [] w) as Hres.
    destruct (passiveLoop env (Targets cfg') [] w) as [found w1]. simpl in *.
    rewrite removeDuplicates_firstSeen. split; [apply NoDup_firstSeen|by rewrite Hres]. }
  destruct (PassiveDiscovery env cfg' w) as [discovered w1]. simpl in *.
  destruct (len discovered =? 0).
  - by exists None, w1, discovered.
  - destruct (GeneratePassiveReport_quiet sys w1) as [Hrep Hres].
    destruct (GeneratePassiveReport sys w1) as [csv w2]. simpl in *.
    exists csv, w2, discovered. split_and!; [done| |done|by rewrite Hres|by rewrite Hres].
    by apply (extendsBy_trans _ quiet_closed _ w1).
Qed.

Lemma RunScan_passive_witness :
  exists csv w' discovered,
    RunScan amassEnv resolvingSys 0 (passiveConfig ["example.com"] 4) emptyWorld
    = Some (csv, w')
    /\ extendsBy (fun tr => passiveOnly tr = true /\ disciplined tr) emptyWorld w'
    /\ NoDup discovered
    /\ Hosts (Results w') = Hosts (Results emptyWorld) ++ (discoveredHost <$> discovered)
    /\ UnresponsiveHosts (Results w') = UnresponsiveHosts (Results emptyWorld).
Proof.
  exact (RunScan_passive amassEnv resolvingSys 0 (passiveConfig ["example.com"] 4)
           emptyWorld eq_refl).
Defined.
